(** * Warmane PvP analytics API: the crawler's match-detail pipeline

    A shallow embedding of [src/lib/crawler/crawler.ts]: the summary
    extractor's team/bracket split, the field normaliser applied to every
    [CharacterDetail], and the aggregation loop of
    [WarmaneCrawler.getMatchDetails].

    JavaScript strings are modelled as [string]: a sequence of code units,
    here restricted to the range 0..255.  The three regular-expression
    literals of the source are written as values of a small regex syntax
    and run by a backtracking matcher that follows ECMAScript's order of
    alternatives (greedy before shorter, lazy before longer, left
    alternative before right). *)

From Stdlib Require Import String Ascii List Bool Arith Lia.
Import ListNotations.
Open Scope string_scope.
Open Scope bool_scope.

Set Implicit Arguments.

(** ** Code units and character classes *)

Module JS.

Definition code (c : ascii) : nat := nat_of_ascii c.

(** [\d] without the unicode flag: [0-9]. *)
Definition is_digit (c : ascii) : bool :=
  ((48 <=? code c) && (code c <=? 57))%nat.

(** LineTerminator code units below 256: LF and CR.  The dot of a regex
    without the [s] flag matches everything else. *)
Definition is_line_terminator (c : ascii) : bool :=
  ((code c =? 10) || (code c =? 13))%nat.

(** [\s], and what [String.prototype.trim] removes: WhiteSpace and
    LineTerminator.  Below 256 these are TAB, LF, VT, FF, CR, SP and NBSP. *)
Definition is_space (c : ascii) : bool :=
  (((9 <=? code c) && (code c <=? 13)) || (code c =? 32) || (code c =? 160))%nat.

Definition is_char (a : ascii) (c : ascii) : bool := Ascii.eqb a c.

Definition not_char (a : ascii) (c : ascii) : bool := negb (Ascii.eqb a c).

Definition any_char (c : ascii) : bool := negb (is_line_terminator c).

(** A string is truthy when it is not empty. *)
Definition truthy (s : string) : bool :=
  match s with
  | EmptyString => false
  | String _ _ => true
  end.

(** The longest prefix of [s] whose code units satisfy [p], and the rest. *)
Fixpoint span (p : ascii -> bool) (s : string) : string * string :=
  match s with
  | EmptyString => (EmptyString, EmptyString)
  | String c s' =>
      if p c then let (run, rest) := span p s' in (String c run, rest)
      else (EmptyString, s)
  end.

Fixpoint forallb (p : ascii -> bool) (s : string) : bool :=
  match s with
  | EmptyString => true
  | String c s' => p c && forallb p s'
  end.

Fixpoint rev (s : string) : string :=
  match s with
  | EmptyString => EmptyString
  | String c s' => rev s' ++ String c EmptyString
  end.

Definition trimStart (s : string) : string := snd (span is_space s).

Definition trimEnd (s : string) : string := rev (trimStart (rev s)).

(** [String.prototype.trim]. *)
Definition trim (s : string) : string := trimEnd (trimStart s).

End JS.

(** ** Regular expressions

    The part of the ECMAScript pattern syntax that the three literals of
    the crawler use.  Repetition is only ever applied to a character
    class there, so [Star] and [LazyStar] take a class. *)

Module Regex.

Inductive regex : Type :=
| Eps                             (* the empty pattern *)
| Char (p : ascii -> bool)        (* one code unit of a class *)
| Cat (r1 r2 : regex)             (* r1 r2 *)
| Alt (r1 r2 : regex)             (* r1|r2 *)
| Opt (r : regex)                 (* r? *)
| Star (p : ascii -> bool)        (* [class]* , greedy *)
| LazyStar (p : ascii -> bool)    (* [class]*? *)
| Lookahead (r : regex)           (* (?=r) *)
| Group (n : nat) (r : regex).    (* the n-th capturing parentheses *)

(** [class]+ and [class]{1,}. *)
Definition Plus (p : ascii -> bool) : regex := Cat (Char p) (Star p).

(** A literal run of characters. *)
Fixpoint Lit (s : string) : regex :=
  match s with
  | EmptyString => Eps
  | String c s' => Cat (Char (JS.is_char c)) (Lit s')
  end.

Definition captures := list (nat * string).

Fixpoint capture (n : nat) (caps : captures) : option string :=
  match caps with
  | [] => None
  | (m, v) :: caps' => if (m =? n)%nat then Some v else capture n caps'
  end.

(** What was consumed between the input [s] and its suffix [s']. *)
Definition taken (s s' : string) : string :=
  substring 0 (String.length s - String.length s') s.

Section Matcher.

Variable R : Type.

(** Greedy repetition of a class: the longest run first, then shorter ones. *)
Fixpoint star_greedy (p : ascii -> bool) (s : string)
    (k : string -> option R) : option R :=
  match s with
  | String c s' =>
      if p c then
        match star_greedy p s' k with
        | Some r => Some r
        | None => k s
        end
      else k s
  | EmptyString => k s
  end.

(** Lazy repetition of a class: the empty run first, then longer ones. *)
Fixpoint star_lazy (p : ascii -> bool) (s : string)
    (k : string -> option R) : option R :=
  match k s with
  | Some r => Some r
  | None =>
      match s with
      | String c s' => if p c then star_lazy p s' k else None
      | EmptyString => None
      end
  end.

End Matcher.

(** The backtracking matcher, in continuation-passing style: [rmatch r s
    caps k] matches [r] at the start of [s] and passes the remaining input
    and the captures to [k]; when [k] fails the next alternative of [r] is
    tried. *)
Fixpoint rmatch (r : regex) (R : Type) (s : string) (caps : captures)
    (k : string -> captures -> option R) {struct r} : option R :=
  match r with
  | Eps => k s caps
  | Char p =>
      match s with
      | String c s' => if p c then k s' caps else None
      | EmptyString => None
      end
  | Cat r1 r2 =>
      rmatch r1 s caps (fun s1 caps1 => rmatch r2 s1 caps1 k)
  | Alt r1 r2 =>
      match rmatch r1 s caps k with
      | Some x => Some x
      | None => rmatch r2 s caps k
      end
  | Opt r1 =>
      match rmatch r1 s caps k with
      | Some x => Some x
      | None => k s caps
      end
  | Star p => star_greedy p s (fun s' => k s' caps)
  | LazyStar p => star_lazy p s (fun s' => k s' caps)
  | Lookahead r1 =>
      match rmatch r1 s caps (fun _ caps1 => Some caps1) with
      | Some caps1 => k s caps1
      | None => None
      end
  | Group n r1 =>
      rmatch r1 s caps (fun s' caps1 => k s' ((n, taken s s') :: caps1))
  end.

(** The result of a successful match: [whole] is element 0 of the match
    array, [groups] holds the numbered captures and [rest] is the input
    after the match. *)
Record MatchResult := {
  whole : string;
  groups : captures;
  rest : string
}.

(** A match attempt at the start of [s]. *)
Definition match_here (r : regex) (s : string) : option MatchResult :=
  rmatch r s []
    (fun s' caps => Some {| whole := taken s s'; groups := caps; rest := s' |}).

(** [String.prototype.match] with a regex that has no [g] flag: the match
    at the leftmost position that has one. *)
Fixpoint String_match (r : regex) (s : string) : option MatchResult :=
  match match_here r s with
  | Some m => Some m
  | None =>
      match s with
      | String _ s' => String_match r s'
      | EmptyString => None
      end
  end.

(** [String.prototype.replace] with a [g]-flagged regex and the empty
    string as replacement.  [skip] counts the code units of the current
    match that are still to be dropped; an empty match drops nothing and
    the scan moves on by one code unit. *)
Fixpoint replace_all_empty (r : regex) (skip : nat) (s : string) : string :=
  match skip with
  | S n =>
      match s with
      | String _ s' => replace_all_empty r n s'
      | EmptyString => EmptyString
      end
  | O =>
      match s with
      | EmptyString => EmptyString
      | String c s' =>
          match match_here r s with
          | Some m =>
              match String.length (whole m) with
              | S n => replace_all_empty r n s'
              | O => String c (replace_all_empty r 0 s')
              end
          | None => String c (replace_all_empty r 0 s')
          end
      end
  end.

(** What a pattern accepts: [lang r s s'] when [r] can consume a prefix
    of [s] and leave [s']. *)
(** What a pattern accepts: [lang r s s'] when [r] can consume a prefix
    of [s] and leave [s']. *)
Fixpoint lang (r : regex) (s s' : string) : Prop :=
  match r with
  | Eps => s' = s
  | Char p => exists c, s = String c s' /\ p c = true
  | Cat r1 r2 => exists s1, lang r1 s s1 /\ lang r2 s1 s'
  | Alt r1 r2 => lang r1 s s' \/ lang r2 s s'
  | Opt r1 => lang r1 s s' \/ s' = s
  | Star p => exists run, s = run ++ s' /\ JS.forallb p run = true
  | LazyStar p => exists run, s = run ++ s' /\ JS.forallb p run = true
  | Lookahead r1 => s' = s /\ exists t, lang r1 s t
  | Group _ r1 => lang r1 s s'
  end.

(** The same with the captures: [sem r s caps s' caps'] when [r] can
    consume a prefix of [s], leave [s'] and turn the captures [caps] into
    [caps']. *)
Fixpoint sem (r : regex) (s : string) (caps : captures)
    (s' : string) (caps' : captures) : Prop :=
  match r with
  | Eps => s' = s /\ caps' = caps
  | Char p => (exists c, s = String c s' /\ p c = true) /\ caps' = caps
  | Cat r1 r2 =>
      exists s1 caps1, sem r1 s caps s1 caps1 /\ sem r2 s1 caps1 s' caps'
  | Alt r1 r2 => sem r1 s caps s' caps' \/ sem r2 s caps s' caps'
  | Opt r1 => sem r1 s caps s' caps' \/ (s' = s /\ caps' = caps)
  | Star p =>
      (exists run, s = run ++ s' /\ JS.forallb p run = true) /\ caps' = caps
  | LazyStar p =>
      (exists run, s = run ++ s' /\ JS.forallb p run = true) /\ caps' = caps
  | Lookahead r1 => s' = s /\ exists t, sem r1 s caps t caps'
  | Group n r1 =>
      exists caps1, sem r1 s caps s' caps1 /\ caps' = (n, taken s s') :: caps1
  end.

End Regex.

Import Regex.

Declare Scope regex_scope.
Delimit Scope regex_scope with regex.
Bind Scope regex_scope with regex.
Notation "r1 >> r2" := (Cat r1 r2) (at level 61, right associativity) : regex_scope.

(** ** The data model (crawler.ts, lines 5-47) *)

Module MatchSummary.
Record t := {
  matchId : string;
  team_name : string;
  bracket : string;
  outcome : string;
  points_change : string;
  date : string;
  duration : string;
  arena : string
}.
End MatchSummary.

Record CharacterDetail := {
  realm : string;
  charname : string;
  class : option string;
  race : option string;
  gender : option string;
  teamname : string;
  teamnamerich : string;
  damageDone : string;
  deaths : string;
  healingDone : string;
  killingBlows : string;
  matchmaking_change : option string;
  personal_change : string
}.

Module MatchDetails.
Record t := {
  matchId : string;
  team_name : string;
  bracket : string;
  outcome : string;
  points_change : string;
  date : string;
  duration : string;
  arena : string;
  character_details : list CharacterDetail
}.
End MatchDetails.

(** Assignments to the three properties that the normaliser writes. *)
Definition set_teamnamerich (v : string) (cd : CharacterDetail) : CharacterDetail :=
  {| realm := realm cd; charname := charname cd; class := class cd;
     race := race cd; gender := gender cd; teamname := teamname cd;
     teamnamerich := v;
     damageDone := damageDone cd; deaths := deaths cd;
     healingDone := healingDone cd; killingBlows := killingBlows cd;
     matchmaking_change := matchmaking_change cd;
     personal_change := personal_change cd |}.

Definition set_matchmaking_change (v : string) (cd : CharacterDetail) : CharacterDetail :=
  {| realm := realm cd; charname := charname cd; class := class cd;
     race := race cd; gender := gender cd; teamname := teamname cd;
     teamnamerich := teamnamerich cd;
     damageDone := damageDone cd; deaths := deaths cd;
     healingDone := healingDone cd; killingBlows := killingBlows cd;
     matchmaking_change := Some v;
     personal_change := personal_change cd |}.

Definition set_personal_change (v : string) (cd : CharacterDetail) : CharacterDetail :=
  {| realm := realm cd; charname := charname cd; class := class cd;
     race := race cd; gender := gender cd; teamname := teamname cd;
     teamnamerich := teamnamerich cd;
     damageDone := damageDone cd; deaths := deaths cd;
     healingDone := healingDone cd; killingBlows := killingBlows cd;
     matchmaking_change := matchmaking_change cd;
     personal_change := v |}.

(** ** The regular-expression literals of the source *)

(** Line 90: [/(.*?)\s*\((\d+v\d+)\)/]. *)
Definition teamBracketRegex : regex :=
  (Group 1 (LazyStar JS.any_char) >>
   Star JS.is_space >>
   Lit "(" >>
   Group 2 (Plus JS.is_digit >> Lit "v" >> Plus JS.is_digit) >>
   Lit ")")%regex.

(** Line 186: [/<[^>]+>/g]. *)
Definition tagRegex : regex :=
  (Lit "<" >> Plus (JS.not_char ">") >> Lit ">")%regex.

(** Line 190: [/(-?\d{1,})(?=\s*\(<span)/]. *)
Definition overallRegex : regex :=
  (Group 1 (Opt (Lit "-") >> Plus JS.is_digit) >>
   Lookahead (Star JS.is_space >> Lit "(<span"))%regex.

(** Line 191: [/((\+|-)\d+)(?=<\/span)/]. *)
Definition changeRegex : regex :=
  (Group 1 (Group 2 (Alt (Lit "+") (Lit "-")) >> Plus JS.is_digit) >>
   Lookahead (Lit "</span"))%regex.

(** Element [n] of a match array.  The groups read by the crawler take
    part in every match of their regex. *)
Definition nth_group (m : MatchResult) (n : nat) : string :=
  match capture n (groups m) with
  | Some v => v
  | None => EmptyString
  end.

(** ** Summary extractor (lines 75-117)

    The selector engine is outside the crawler: a table row is given by
    the text content of the cells that the callback reads. *)

Record Row := {
  td1 : string;
  td2_a : string;
  td3 : string;
  td4 : string;
  td5 : string;
  td6 : string;
  td7 : string
}.

(** Lines 90-101: the split of the combined team/bracket text. *)
Definition splitTeamBracket (teamBracketText : string) : string * string :=
  if JS.truthy teamBracketText then
    match String_match teamBracketRegex teamBracketText with
    | Some teamBracketMatch =>
        (nth_group teamBracketMatch 1, nth_group teamBracketMatch 2)
    | None => (EmptyString, EmptyString)
    end
  else (EmptyString, EmptyString).

(** The callback of [.each] (lines 79-114). *)
Definition extractRow (element : Row) : MatchSummary.t :=
  let matchId := JS.trim (td1 element) in
  let outcome := JS.trim (td3 element) in
  let points_change := JS.trim (td4 element) in
  let date := JS.trim (td5 element) in
  let duration := JS.trim (td6 element) in
  let arena := JS.trim (td7 element) in
  let teamBracketText := JS.trim (td2_a element) in
  let (team_name, bracket) := splitTeamBracket teamBracketText in
  {| MatchSummary.matchId := matchId;
     MatchSummary.team_name := team_name;
     MatchSummary.date := date;
     MatchSummary.bracket := bracket;
     MatchSummary.arena := arena;
     MatchSummary.points_change := points_change;
     MatchSummary.outcome := outcome;
     MatchSummary.duration := duration |}.

Definition extractMatchSummaries (rows : list Row) : list MatchSummary.t :=
  map extractRow rows.

(** ** Field normaliser (lines 184-214): the callback of [forEach] *)

Definition stripTags (s : string) : string := replace_all_empty tagRegex 0 s.

Definition formatCharacterDetail (characterDetail : CharacterDetail)
  : CharacterDetail :=
  let characterDetail :=
    set_teamnamerich (stripTags (teamnamerich characterDetail)) characterDetail in
  (* formats matchmaking_change *)
  let characterDetail :=
    match matchmaking_change characterDetail with
    | Some raw =>
        if JS.truthy raw then
          match String_match changeRegex raw, String_match overallRegex raw with
          | Some mmChangeMatch, Some mmOverallMatch =>
              set_matchmaking_change
                (whole mmChangeMatch ++ " (" ++ whole mmOverallMatch ++ ")")
                characterDetail
          | _, _ => characterDetail
          end
        else characterDetail
    | None => characterDetail
    end in
  (* formats personal_change *)
  if JS.truthy (personal_change characterDetail) then
    match String_match changeRegex (personal_change characterDetail),
          String_match overallRegex (personal_change characterDetail) with
    | Some personalChangeMatch, Some personalOverallMatch =>
        set_personal_change
          (whole personalChangeMatch ++ " (" ++ whole personalOverallMatch ++ ")")
          characterDetail
    | _, _ => characterDetail
    end
  else characterDetail.

(** ** Asynchronous calls

    [getMatchDetails] is one async function: a single flow of control that
    suspends at each [await].  A computation threads the [World] (how many
    calls the limiter has been handed, and the log of what happened to
    them) and ends fulfilled with a value or rejected with the error of
    the transport. *)

Record RemoteFetchError := { message : string }.

Inductive Outcome (A : Type) : Type :=
| Fulfilled (a : A)
| Rejected (e : RemoteFetchError).

Arguments Fulfilled {A} a.
Arguments Rejected {A} e.

(** What the limiter sees of call number [call]: it is handed the call,
    and later the call settles (fulfils or rejects).  An invocation of the
    fetcher can only be in flight between these two events. *)
Inductive Event : Type :=
| Submit (call : nat)
| Settle (call : nat).

Record World := {
  calls : nat;
  log : list Event
}.

Definition Async (A : Type) : Type := World -> World * Outcome A.

Definition ret {A : Type} (a : A) : Async A := fun w => (w, Fulfilled a).

Definition bind {A B : Type} (m : Async A) (f : A -> Async B) : Async B :=
  fun w =>
    match m w with
    | (w', Fulfilled a) => f a w'
    | (w', Rejected e) => (w', Rejected e)
    end.

Notation "x <- m ;; f" := (bind m (fun x => f))
  (at level 62, m at next level, right associativity).

Definition initial : World := {| calls := 0; log := [] |}.

(** The number of calls handed to the limiter and not yet settled, after
    the events of [evs] (given in the order they happened). *)
Definition count_event (n : nat) (e : Event) : nat :=
  match e with
  | Submit _ => S n
  | Settle _ => Nat.pred n
  end.

Definition in_flight (evs : list Event) : nat := fold_left count_event evs 0.

(** Line 170: [new Bottleneck({ maxConcurrent: 32 })]. *)
Definition maxConcurrent : nat := 32.

(** ** Aggregator (lines 160-232) *)

Module FetchParams.
Record t := {
  matchId : string;
  character : string;
  realm : string
}.
End FetchParams.

Module Params.
Record t := {
  character : string;
  realm : string;
  matchSummaries : list MatchSummary.t
}.
End Params.

Section Aggregator.

(** The detail fetcher [fetchMatchData] (lines 133-152) is a remote
    request: what call number [n] returns for its parameters is given from
    outside, and successive calls with the same parameters may differ. *)
Variable fetchMatchData :
  nat -> FetchParams.t -> Outcome (list CharacterDetail).

(** Lines 171 and 177: [await limitedFetchMatchData(...)].  The call is
    handed to the limiter and the loop is suspended until it has settled. *)
Definition limitedFetchMatchData (p : FetchParams.t)
  : Async (list CharacterDetail) :=
  fun w =>
    let n := calls w in
    ({| calls := S n; log := (log w ++ [Submit n; Settle n])%list |},
     fetchMatchData n p).

(** Lines 223-226: the spread of the summary plus [character_details]. *)
Definition mkMatchDetails (matchSummary : MatchSummary.t)
    (characterDetails : list CharacterDetail) : MatchDetails.t :=
  {| MatchDetails.matchId := MatchSummary.matchId matchSummary;
     MatchDetails.team_name := MatchSummary.team_name matchSummary;
     MatchDetails.bracket := MatchSummary.bracket matchSummary;
     MatchDetails.outcome := MatchSummary.outcome matchSummary;
     MatchDetails.points_change := MatchSummary.points_change matchSummary;
     MatchDetails.date := MatchSummary.date matchSummary;
     MatchDetails.duration := MatchSummary.duration matchSummary;
     MatchDetails.arena := MatchSummary.arena matchSummary;
     MatchDetails.character_details := characterDetails |}.

(** The body of the [for] loop (lines 177-229); [matchDetailsList] is the
    array that the loop pushes to. *)
Definition loopBody (params : Params.t) (matchId : string)
    (matchDetailsList : list MatchDetails.t) : Async (list MatchDetails.t) :=
  characterDetails <-
    limitedFetchMatchData
      {| FetchParams.matchId := matchId;
         FetchParams.character := Params.character params;
         FetchParams.realm := Params.realm params |} ;;
  let characterDetails := map formatCharacterDetail characterDetails in
  let matchSummary :=
    find (fun summary => String.eqb (MatchSummary.matchId summary) matchId)
         (Params.matchSummaries params) in
  match matchSummary with
  | Some matchSummary =>
      ret (matchDetailsList ++ [mkMatchDetails matchSummary characterDetails])%list
  | None => ret matchDetailsList
  end.

Fixpoint forOf (params : Params.t) (matchIds : list string)
    (matchDetailsList : list MatchDetails.t) : Async (list MatchDetails.t) :=
  match matchIds with
  | [] => ret matchDetailsList
  | matchId :: matchIds' =>
      matchDetailsList' <- loopBody params matchId matchDetailsList ;;
      forOf params matchIds' matchDetailsList'
  end.

Definition getMatchDetails (params : Params.t) : Async (list MatchDetails.t) :=
  let matchIds := map MatchSummary.matchId (Params.matchSummaries params) in
  let matchDetailsList := [] in
  forOf params matchIds matchDetailsList.

End Aggregator.

(** * Vocabulary of the properties

    What the claims speak about, stated without the matcher: tokens, tags,
    and what the join adds for one identifier. *)

Definition is_sign (c : ascii) : bool := JS.is_char "+" c || JS.is_char "-" c.

(** A non-empty run of code units of one class. *)
Definition run_of (p : ascii -> bool) (s : string) : Prop :=
  JS.truthy s = true /\ JS.forallb p s = true.

(** A sign followed by digits. *)
Definition delta_token (t : string) : Prop :=
  exists sg ds, t = String sg ds /\ is_sign sg = true /\ run_of JS.is_digit ds.

(** Digits, optionally after a minus sign. *)
Definition overall_token (t : string) : Prop :=
  exists ds, (t = ds \/ t = "-" ++ ds) /\ run_of JS.is_digit ds.

(** A bracket label: digits, the letter v, digits. *)
Definition bracket_label (b : string) : Prop :=
  exists n1 n2, b = n1 ++ "v" ++ n2 /\ run_of JS.is_digit n1 /\ run_of JS.is_digit n2.

(** The text holds a bracket label between parentheses. *)
Definition has_bracket (text : string) : Prop :=
  exists before b after,
    text = before ++ "(" ++ b ++ ")" ++ after /\ bracket_label b.

(** The raw value holds a sign and digits right before the text "</span". *)
Definition has_delta (raw : string) : Prop :=
  exists before t after,
    raw = before ++ t ++ "</span" ++ after /\ delta_token t.

(** The raw value holds digits, then optional white space, then the text
    "(<span". *)
Definition has_overall (raw : string) : Prop :=
  exists before ds ws after,
    raw = before ++ ds ++ ws ++ "(<span" ++ after /\
    run_of JS.is_digit ds /\ JS.forallb JS.is_space ws = true.

(** [s] starts with a tag, "<", one or more code units other than ">",
    and ">", and [s'] follows it. *)
Definition tag_at (s s' : string) : Prop :=
  exists body, s = "<" ++ body ++ ">" ++ s' /\ run_of (JS.not_char ">") body.

(** The removal of tags, as a relation: from left to right, a tag is
    dropped and a code unit at which no tag starts is kept. *)
Inductive strips : string -> string -> Prop :=
| strips_nil : strips "" ""
| strips_tag (s s' out : string) :
    tag_at s s' -> strips s' out -> strips s out
| strips_keep (c : ascii) (s out : string) :
    (forall s', ~ tag_at (String c s) s') ->
    strips s out -> strips (String c s) (String c out).

Fixpoint drop (n : nat) (s : string) : string :=
  match n, s with
  | S n', String _ s' => drop n' s'
  | _, _ => s
  end.

(** Element 0 of the match of [changeRegex] and of [overallRegex]. *)
Definition deltaOf (raw : string) : option string :=
  option_map whole (String_match changeRegex raw).

Definition overallOf (raw : string) : option string :=
  option_map whole (String_match overallRegex raw).

(** What a change field that is present becomes. *)
Definition formatChange (raw : string) : string :=
  match deltaOf raw, overallOf raw with
  | Some delta, Some overall => delta ++ " (" ++ overall ++ ")"
  | _, _ => raw
  end.

(** ** Payload values *)

(** The input starts with something that is not a digit, or is empty. *)
Definition ends_digits (x : string) : Prop :=
  match x with
  | EmptyString => True
  | String c _ => JS.is_digit c = false
  end.

Definition no_sign (c : ascii) : bool := negb (is_sign c).

Definition no_digit (c : ascii) : bool := negb (JS.is_digit c).

Definition starts_digit (s : string) : bool :=
  match s with
  | EmptyString => false
  | String c _ => JS.is_digit c
  end.

(** No sign of [before] is directly followed by a digit, in [before]
    followed by [s]. *)
Fixpoint calm_before (before s : string) : bool :=
  match before with
  | EmptyString => true
  | String c before' =>
      negb (is_sign c && starts_digit (before' ++ s)) && calm_before before' s
  end.

(** ** The claim as the specification words it (for comparison) *)

Definition opens_tag (s : string) : Prop :=
  exists c rest, s = String "<" (String c rest) /\ c <> "/"%char.

Definition closes_tag (s : string) : Prop :=
  exists rest, s = "</" ++ rest.

(** "a sign followed by digits immediately preceding a markup close tag" *)
Definition spec_has_delta (raw : string) : Prop :=
  exists before t after,
    raw = before ++ t ++ after /\ delta_token t /\ closes_tag after.

(** "a run of digits (optionally negative) immediately preceding a markup
    open tag" *)
Definition spec_has_overall (raw : string) : Prop :=
  exists before t after,
    raw = before ++ t ++ after /\ overall_token t /\ opens_tag after.

(** ** The join, call by call *)

Definition request (params : Params.t) (matchId : string) : FetchParams.t :=
  {| FetchParams.matchId := matchId;
     FetchParams.character := Params.character params;
     FetchParams.realm := Params.realm params |}.

Definition lookup (params : Params.t) (matchId : string)
  : option MatchSummary.t :=
  find (fun summary => String.eqb (MatchSummary.matchId summary) matchId)
       (Params.matchSummaries params).

(** What one identifier adds to the output once its batch has arrived. *)
Definition joinOne (params : Params.t) (matchId : string)
    (batch : list CharacterDetail) : list MatchDetails.t :=
  match lookup params matchId with
  | Some matchSummary =>
      [mkMatchDetails matchSummary (map formatCharacterDetail batch)]
  | None => []
  end.

Section JoinSpec.

Variable fetchMatchData :
  nat -> FetchParams.t -> Outcome (list CharacterDetail).
Variable params : Params.t.

(** The loop without the world: calls are numbered from [n]. *)
Fixpoint joinFrom (n : nat) (matchIds : list string)
  : Outcome (list MatchDetails.t) :=
  match matchIds with
  | [] => Fulfilled []
  | matchId :: matchIds' =>
      match fetchMatchData n (request params matchId) with
      | Rejected e => Rejected e
      | Fulfilled batch =>
          match joinFrom (S n) matchIds' with
          | Rejected e => Rejected e
          | Fulfilled more => Fulfilled (joinOne params matchId batch ++ more)%list
          end
      end
  end.

End JoinSpec.

(** The log of a run: the calls are submitted and settled one after the
    other. *)
Fixpoint sequential (n k : nat) : list Event :=
  match k with
  | O => []
  | S k' => Submit n :: Settle n :: sequential (S n) k'
  end.

(** A record of the output carries the fields of the summary [s]. *)
Definition carries (d : MatchDetails.t) (s : MatchSummary.t) : Prop :=
  MatchDetails.matchId d = MatchSummary.matchId s /\
  MatchDetails.team_name d = MatchSummary.team_name s /\
  MatchDetails.bracket d = MatchSummary.bracket s /\
  MatchDetails.outcome d = MatchSummary.outcome s /\
  MatchDetails.points_change d = MatchSummary.points_change s /\
  MatchDetails.date d = MatchSummary.date s /\
  MatchDetails.duration d = MatchSummary.duration s /\
  MatchDetails.arena d = MatchSummary.arena s.

Definition has_summary (params : Params.t) (matchId : string) : bool :=
  existsb (fun summary => String.eqb (MatchSummary.matchId summary) matchId)
          (Params.matchSummaries params).

(** ** Sample data *)

Definition sampleCharacter : CharacterDetail :=
  {| realm := "Icecrown"; charname := "Ziggy"; class := Some "8";
     race := None; gender := None;
     teamname := "Team Alpha";
     teamnamerich := "<span>Team Alpha</span>";
     damageDone := "51234"; deaths := "0"; healingDone := "1200";
     killingBlows := "2";
     matchmaking_change := None;
     personal_change := "200 (<span class='history-win'>+15</span>)" |}.

Definition sampleSummary (matchId team_name : string) : MatchSummary.t :=
  {| MatchSummary.matchId := matchId;
     MatchSummary.team_name := team_name;
     MatchSummary.bracket := "2v2";
     MatchSummary.outcome := "Win";
     MatchSummary.points_change := "+15";
     MatchSummary.date := "2023-05-01";
     MatchSummary.duration := "03:12";
     MatchSummary.arena := "Nagrand Arena" |}.

Definition sampleParams : Params.t :=
  {| Params.character := "Ziggy";
     Params.realm := "Icecrown";
     Params.matchSummaries :=
       [sampleSummary "A" "Alpha"; sampleSummary "B" "Beta";
        sampleSummary "A" "Gamma"] |}.

(** Three matches "A", "B" and "C". *)
Definition threeMatches : Params.t :=
  {| Params.character := "Ziggy";
     Params.realm := "Icecrown";
     Params.matchSummaries :=
       [sampleSummary "A" "Alpha"; sampleSummary "B" "Beta";
        sampleSummary "C" "Gamma"] |}.

(** A fetcher that always answers with one character. *)
Definition sampleFetch (_ : nat) (_ : FetchParams.t)
  : Outcome (list CharacterDetail) :=
  Fulfilled [sampleCharacter].

(** A fetcher whose call for identifier "B" fails. *)
Definition failingFetch (_ : nat) (p : FetchParams.t)
  : Outcome (list CharacterDetail) :=
  if String.eqb (FetchParams.matchId p) "B"
  then Rejected {| message := "Request failed with status code 503" |}
  else Fulfilled [sampleCharacter].

Definition sampleRow (teamBracket : string) : Row :=
  {| td1 := " 8675309 "; td2_a := teamBracket; td3 := "Win"; td4 := "+15";
     td5 := "2023-05-01"; td6 := "03:12"; td7 := "Nagrand Arena" |}.

(** * The rest of the crawler

    The transport ([axios]) and the selector engine ([cheerio]) are
    outside the crawler: what a request returns and which rows a document
    holds are given from outside. *)

(** What [axios.post] is handed: the address, the form-encoded body and
    the headers. *)
Record Request := {
  url : string;
  data : string;
  headers : list (string * string)
}.

(** Lines 68 and 139: the address of the match history of a character. *)
Definition matchHistoryUrl (character realm : string) : string :=
  "https://armory.warmane.com/character/" ++ character ++ "/" ++ realm
  ++ "/match-history".

(** Lines 138-149: the request of [fetchMatchData]. *)
Definition matchDataRequest (params : FetchParams.t) : Request :=
  {| url := matchHistoryUrl (FetchParams.character params)
                            (FetchParams.realm params);
     data := "matchinfo=" ++ FetchParams.matchId params;
     headers :=
       [("Content-Type", "application/x-www-form-urlencoded; charset=UTF-8");
        ("User-Agent",
         "Mozilla/5.0 (Windows NT 10.0; Win64; x64) AppleWebKit/537.36 (KHTML, like Gecko) "
         ++ " Chrome/103.0.5060.114 Safari/537.36")] |}.

Section Crawler.

(** [axios.get] on an address: the document, or the error of the
    transport. *)
Variable axios_get : string -> Outcome string.

(** [axios.post], call by call: the decoded payload, or the error of the
    transport. *)
Variable axios_post : nat -> Request -> Outcome (list CharacterDetail).

(** The rows that [$("table#data-table-history tbody tr")] selects in a
    document, each with the text of the cells that the callback reads, in
    document order. *)
Variable select : string -> list Row.

(** Lines 63-72. *)
Definition fetchMatchHistoryHTML (character realm : string) : Async string :=
  fun w => (w, axios_get (matchHistoryUrl character realm)).

(** Lines 133-152, as the fetcher that [getMatchDetails] wraps. *)
Definition fetchMatchData (call : nat) (params : FetchParams.t)
  : Outcome (list CharacterDetail) :=
  axios_post call (matchDataRequest params).

(** Lines 120-127. *)
Definition getMatchSummaries (character realm : string)
  : Async (list MatchSummary.t) :=
  html <- fetchMatchHistoryHTML character realm ;;
  let matchSummaries := extractMatchSummaries (select html) in
  ret matchSummaries.

(** Lines 235-246. *)
Definition fetchAllMatchDetails (character realm : string)
  : Async (list MatchDetails.t) :=
  matchSummaries <- getMatchSummaries character realm ;;
  matchDetailsList <-
    getMatchDetails fetchMatchData
      {| Params.character := character;
         Params.realm := realm;
         Params.matchSummaries := matchSummaries |} ;;
  ret matchDetailsList.

End Crawler.

(** ** More vocabulary *)

Section CallsSpec.

Variable fetchMatchData :
  nat -> FetchParams.t -> Outcome (list CharacterDetail).
Variable params : Params.t.

(** How many calls the loop makes, numbered from [n]: it stops after the
    first call that is rejected. *)
Fixpoint callsMade (n : nat) (matchIds : list string) : nat :=
  match matchIds with
  | [] => 0
  | matchId :: matchIds' =>
      match fetchMatchData n (request params matchId) with
      | Rejected _ => 1
      | Fulfilled _ => S (callsMade (S n) matchIds')
      end
  end.

End CallsSpec.

(** No tag starts anywhere in [s]. *)
Definition tag_free (s : string) : Prop :=
  forall before t t', s = before ++ t -> ~ tag_at t t'.

(** [s] holds neither "<" nor ">". *)
Definition markup_free (s : string) : bool :=
  JS.forallb (fun c => negb (JS.is_char "<" c || JS.is_char ">" c)) s.

(** [s] does not end with white space. *)
Definition no_trailing_space (s : string) : Prop :=
  forall before c, s = before ++ String c "" -> JS.is_space c = false.

(** [s] does not start with white space. *)
Definition no_leading_space (s : string) : Prop :=
  match s with
  | EmptyString => True
  | String c _ => JS.is_space c = false
  end.

(** [field] is [cell] with white space removed around it, and only white
    space. *)
Definition trimmed_of (cell field : string) : Prop :=
  no_leading_space field /\ no_trailing_space field /\
  exists left right,
    cell = left ++ field ++ right /\
    JS.forallb JS.is_space left = true /\
    JS.forallb JS.is_space right = true.

(** What follows the team name in [teamBracketRegex]:
    [\s*\((\d+v\d+)\)]. *)
Definition bracketTail : regex :=
  (Star JS.is_space >>
   Lit "(" >>
   Group 2 (Plus JS.is_digit >> Lit "v" >> Plus JS.is_digit) >>
   Lit ")")%regex.

(** ** More sample data *)

Definition sampleGet (_ : string) : Outcome string :=
  Fulfilled "<html>...</html>".

Definition failingGet (_ : string) : Outcome string :=
  Rejected {| message := "Request failed with status code 404" |}.

Definition samplePost (_ : nat) (_ : Request) : Outcome (list CharacterDetail) :=
  Fulfilled [sampleCharacter].

Definition sampleSelect (_ : string) : list Row :=
  [sampleRow " Alpha Strike (2v2) "; sampleRow "Beta Squad"].

(** * Strings *)

Lemma append_assoc (a b c : string) : (a ++ b) ++ c = a ++ b ++ c.
Proof. induction a as [ | x a IH ]; simpl; [ reflexivity | now rewrite IH ]. Qed.

Lemma length_append (a b : string) :
  String.length (a ++ b) = String.length a + String.length b.
Proof. induction a as [ | x a IH ]; simpl; [ reflexivity | now rewrite IH ]. Qed.

Lemma forallb_append (p : ascii -> bool) (a b : string) :
  JS.forallb p (a ++ b) = JS.forallb p a && JS.forallb p b.
Proof.
  induction a as [ | x a IH ]; simpl; [ reflexivity | ].
  now rewrite IH, andb_assoc.
Qed.

Lemma taken_append (pre s' : string) : taken (pre ++ s') s' = pre.
Proof.
  unfold taken. rewrite length_append, Nat.add_sub.
  induction pre as [ | c pre IH ]; simpl.
  - now destruct s'.
  - now rewrite IH.
Qed.

(** * The matcher against what a pattern accepts *)

Section StarFacts.

Variable R : Type.
Variable p : ascii -> bool.

Lemma star_greedy_sound (s : string) :
  forall (k : string -> option R) (x : R),
    star_greedy p s k = Some x ->
    exists run s', s = run ++ s' /\ JS.forallb p run = true /\ k s' = Some x.
Proof.
  induction s as [ | c s IH ]; simpl; intros k x H.
  - exists "", "". auto.
  - destruct (p c) eqn:Hc.
    + destruct (star_greedy p s k) as [ y | ] eqn:Hs.
      * injection H as ->.
        destruct (IH _ _ Hs) as [ run [ s' [ -> [ Hrun Hk ] ] ] ].
        exists (String c run), s'. simpl. rewrite Hc. auto.
      * exists "", (String c s). auto.
    + exists "", (String c s). auto.
Qed.

Lemma star_greedy_complete (run : string) :
  forall (s' : string) (k : string -> option R),
    JS.forallb p run = true ->
    k s' <> None ->
    star_greedy p (run ++ s') k <> None.
Proof.
  induction run as [ | c run IH ]; simpl; intros s' k Hrun Hk.
  - destruct s' as [ | c s' ]; simpl; [ exact Hk | ].
    destruct (p c); [ | exact Hk ].
    now destruct (star_greedy p s' k).
  - apply andb_prop in Hrun. destruct Hrun as [ Hc Hrun ]. rewrite Hc.
    specialize (IH s' k Hrun Hk).
    now destruct (star_greedy p (run ++ s') k).
Qed.

Lemma star_lazy_sound (s : string) :
  forall (k : string -> option R) (x : R),
    star_lazy p s k = Some x ->
    exists run s', s = run ++ s' /\ JS.forallb p run = true /\ k s' = Some x.
Proof.
  induction s as [ | c s IH ]; simpl; intros k x H.
  - destruct (k "") eqn:Hk; [ | discriminate ].
    exists "", "". injection H as ->. auto.
  - destruct (k (String c s)) as [ y | ] eqn:Hk.
    + injection H as ->. exists "", (String c s). auto.
    + destruct (p c) eqn:Hc; [ | discriminate ].
      destruct (IH _ _ H) as [ run [ s' [ -> [ Hrun Hk' ] ] ] ].
      exists (String c run), s'. simpl. rewrite Hc. auto.
Qed.

Lemma star_lazy_complete (run : string) :
  forall (s' : string) (k : string -> option R),
    JS.forallb p run = true ->
    k s' <> None ->
    star_lazy p (run ++ s') k <> None.
Proof.
  induction run as [ | c run IH ]; simpl; intros s' k Hrun Hk.
  - destruct s' as [ | c s' ]; simpl; now destruct (k _).
  - apply andb_prop in Hrun. destruct Hrun as [ Hc Hrun ]. rewrite Hc.
    destruct (k (String c (run ++ s'))); [ discriminate | ].
    now apply IH.
Qed.

End StarFacts.

Lemma sem_lang (r : regex) :
  forall s caps s' caps', sem r s caps s' caps' -> lang r s s'.
Proof.
  induction r as [ | p | r1 IH1 r2 IH2 | r1 IH1 r2 IH2 | r1 IH1 | p | p
                 | r1 IH1 | n r1 IH1 ]; simpl; intros s caps s' caps' H.
  - tauto.
  - tauto.
  - destruct H as [ s1 [ caps1 [ H1 H2 ] ] ]. eauto.
  - destruct H; eauto.
  - destruct H as [ H | [ H _ ] ]; eauto.
  - tauto.
  - tauto.
  - destruct H as [ -> [ t H ] ]. eauto.
  - destruct H as [ caps1 [ H _ ] ]. eauto.
Qed.

(** Whatever the matcher returns comes from a way to match the pattern. *)
Lemma rmatch_sound (r : regex) :
  forall (R : Type) (s : string) (caps : captures)
         (k : string -> captures -> option R) (x : R),
    rmatch r s caps k = Some x ->
    exists s' caps', sem r s caps s' caps' /\ k s' caps' = Some x.
Proof.
  induction r as [ | p | r1 IH1 r2 IH2 | r1 IH1 r2 IH2 | r1 IH1 | p | p
                 | r1 IH1 | n r1 IH1 ]; simpl; intros R s caps k x H.
  - exists s, caps. auto.
  - destruct s as [ | c s ]; [ discriminate | ].
    destruct (p c) eqn:Hc; [ | discriminate ].
    exists s, caps. repeat split; eauto.
  - apply IH1 in H. destruct H as [ s1 [ caps1 [ H1 H ] ] ].
    apply IH2 in H. destruct H as [ s' [ caps' [ H2 H ] ] ].
    exists s', caps'. split; [ | exact H ]. now exists s1, caps1.
  - destruct (rmatch r1 s caps k) as [ y | ] eqn:H1.
    + injection H as ->. apply IH1 in H1.
      destruct H1 as [ s' [ caps' [ H1 H ] ] ]. eauto.
    + apply IH2 in H. destruct H as [ s' [ caps' [ H2 H ] ] ]. eauto.
  - destruct (rmatch r1 s caps k) as [ y | ] eqn:H1.
    + injection H as ->. apply IH1 in H1.
      destruct H1 as [ s' [ caps' [ H1 H ] ] ]. eauto.
    + exists s, caps. auto.
  - apply star_greedy_sound in H.
    destruct H as [ run [ s' [ -> [ Hrun H ] ] ] ].
    exists s', caps. repeat split; eauto.
  - apply star_lazy_sound in H.
    destruct H as [ run [ s' [ -> [ Hrun H ] ] ] ].
    exists s', caps. repeat split; eauto.
  - destruct (rmatch r1 s caps (fun _ caps1 => Some caps1)) as [ caps1 | ] eqn:H1;
      [ | discriminate ].
    apply IH1 in H1. destruct H1 as [ t [ caps' [ H1 Hc ] ] ].
    injection Hc as ->. exists s, caps1. repeat split; eauto.
  - apply IH1 in H. destruct H as [ s' [ caps' [ H1 H ] ] ].
    exists s', ((n, taken s s') :: caps'). split; [ | exact H ].
    now exists caps'.
Qed.

(** If the pattern can be matched so that the continuation accepts, the
    matcher returns something: backtracking loses no match. *)
Lemma rmatch_complete (r : regex) :
  forall (R : Type) (s s' : string) (caps : captures)
         (k : string -> captures -> option R),
    lang r s s' ->
    (forall caps', k s' caps' <> None) ->
    rmatch r s caps k <> None.
Proof.
  induction r as [ | p | r1 IH1 r2 IH2 | r1 IH1 r2 IH2 | r1 IH1 | p | p
                 | r1 IH1 | n r1 IH1 ]; simpl; intros R s s' caps k Hl Hk.
  - subst s'. apply Hk.
  - destruct Hl as [ c [ -> Hc ] ]. rewrite Hc. apply Hk.
  - destruct Hl as [ s1 [ H1 H2 ] ].
    apply (IH1 _ _ s1); [ exact H1 | ].
    intros caps1. now apply (IH2 _ _ s').
  - destruct (rmatch r1 s caps k) eqn:H1; [ discriminate | ].
    destruct Hl as [ Hl | Hl ].
    + exfalso. revert H1. now apply (IH1 _ _ s').
    + now apply (IH2 _ _ s').
  - destruct (rmatch r1 s caps k) eqn:H1; [ discriminate | ].
    destruct Hl as [ Hl | -> ].
    + exfalso. revert H1. now apply (IH1 _ _ s').
    + apply Hk.
  - destruct Hl as [ run [ -> Hrun ] ]. now apply star_greedy_complete.
  - destruct Hl as [ run [ -> Hrun ] ]. now apply star_lazy_complete.
  - destruct Hl as [ -> [ t Hl ] ].
    destruct (rmatch r1 s caps (fun _ caps1 => Some caps1)) eqn:H1.
    + apply Hk.
    + exfalso. revert H1. now apply (IH1 _ _ t).
  - apply (IH1 _ _ s'); [ exact Hl | ]. intros caps1. apply Hk.
Qed.

Lemma lang_suffix (r : regex) :
  forall s s', lang r s s' -> exists consumed, s = consumed ++ s'.
Proof.
  induction r as [ | p | r1 IH1 r2 IH2 | r1 IH1 r2 IH2 | r1 IH1 | p | p
                 | r1 IH1 | n r1 IH1 ]; simpl; intros s s' Hl.
  - subst. now exists "".
  - destruct Hl as [ c [ -> _ ] ]. now exists (String c "").
  - destruct Hl as [ s1 [ H1 H2 ] ].
    destruct (IH1 _ _ H1) as [ a -> ]. destruct (IH2 _ _ H2) as [ b -> ].
    exists (a ++ b). now rewrite append_assoc.
  - destruct Hl; auto.
  - destruct Hl as [ Hl | -> ]; auto. now exists "".
  - destruct Hl as [ run [ -> _ ] ]. now exists run.
  - destruct Hl as [ run [ -> _ ] ]. now exists run.
  - destruct Hl as [ -> _ ]. now exists "".
  - auto.
Qed.

Lemma lang_Lit (l s s' : string) : lang (Lit l) s s' <-> s = l ++ s'.
Proof.
  revert s. induction l as [ | c l IH ]; simpl; intros s.
  - split; congruence.
  - split.
    + intros [ s1 [ [ c' [ -> Hc ] ] Hl ] ].
      apply Ascii.eqb_eq in Hc. subst c'. apply IH in Hl. now subst.
    + intros ->. exists (l ++ s'). split.
      * exists c. split; [ reflexivity | apply Ascii.eqb_refl ].
      * now apply IH.
Qed.

(** A match attempt succeeds exactly on what the pattern accepts, and
    element 0 of the match is what was consumed. *)
Lemma match_here_sound (r : regex) (s : string) (m : MatchResult) :
  match_here r s = Some m ->
  sem r s [] (rest m) (groups m) /\ s = whole m ++ rest m.
Proof.
  unfold match_here. intros H. apply rmatch_sound in H.
  destruct H as [ s' [ caps' [ Hl H ] ] ]. injection H as <-. simpl.
  split; [ exact Hl | ].
  destruct (lang_suffix _ _ _ (sem_lang _ _ _ _ _ Hl)) as [ consumed -> ].
  now rewrite taken_append.
Qed.

Lemma match_here_complete (r : regex) (s s' : string) :
  lang r s s' -> match_here r s <> None.
Proof.
  unfold match_here. intros Hl.
  eapply rmatch_complete; [ exact Hl | discriminate ].
Qed.

Lemma String_match_sound (r : regex) (s : string) (m : MatchResult) :
  String_match r s = Some m ->
  exists before, s = before ++ whole m ++ rest m /\
                 sem r (whole m ++ rest m) [] (rest m) (groups m).
Proof.
  induction s as [ | c s IH ]; simpl.
  - destruct (match_here r "") as [ m' | ] eqn:Hm; [ | discriminate ].
    intros H. injection H as ->. apply match_here_sound in Hm.
    destruct Hm as [ Hl Hs ]. exists "". rewrite <- Hs. auto.
  - destruct (match_here r (String c s)) as [ m' | ] eqn:Hm.
    + intros H. injection H as ->. apply match_here_sound in Hm.
      destruct Hm as [ Hl Hs ]. exists "". rewrite <- Hs. auto.
    + intros H. destruct (IH H) as [ before [ -> Hl ] ].
      now exists (String c before).
Qed.

Lemma String_match_complete (r : regex) (before s1 s' : string) :
  lang r s1 s' -> String_match r (before ++ s1) <> None.
Proof.
  intros Hl. induction before as [ | c before IH ]; simpl.
  - pose proof (match_here_complete _ _ _ Hl) as Hm.
    destruct s1; simpl; now destruct (match_here r _).
  - now destruct (match_here r _).
Qed.

(** ** What the literals of the crawler accept *)

Lemma sem_Lit (l : string) :
  forall s caps s' caps',
    sem (Lit l) s caps s' caps' <-> s = l ++ s' /\ caps' = caps.
Proof.
  induction l as [ | c l IH ]; simpl; intros s caps s' caps'.
  - split; intros [ H1 H2 ]; split; congruence.
  - split.
    + intros [ s1 [ caps1 [ [ [ c' [ -> Hc ] ] -> ] Hl ] ] ].
      apply Ascii.eqb_eq in Hc. subst c'. apply IH in Hl.
      destruct Hl as [ -> -> ]. auto.
    + intros [ -> -> ]. exists (l ++ s'), caps. split.
      * split; [ | reflexivity ]. exists c.
        split; [ reflexivity | apply Ascii.eqb_refl ].
      * now apply IH.
Qed.

Lemma sem_Plus (p : ascii -> bool) :
  forall s caps s' caps',
    sem (Plus p) s caps s' caps' <->
    (exists ds, s = ds ++ s' /\ run_of p ds) /\ caps' = caps.
Proof.
  unfold Plus, run_of. simpl. intros s caps s' caps'. split.
  - intros [ s1 [ caps1 [ [ [ c [ -> Hc ] ] -> ] [ [ run [ -> Hrun ] ] -> ] ] ] ].
    split; [ | reflexivity ]. exists (String c run). simpl. rewrite Hc. auto.
  - intros [ [ ds [ -> [ Hne Hds ] ] ] -> ].
    destruct ds as [ | c run ]; [ discriminate | ].
    simpl in Hds. apply andb_prop in Hds. destruct Hds as [ Hc Hrun ].
    exists (run ++ s'), caps. split.
    + split; [ | reflexivity ]. now exists c.
    + split; [ | reflexivity ]. now exists run.
Qed.

Lemma lang_Plus (p : ascii -> bool) :
  forall s s', lang (Plus p) s s' <-> exists ds, s = ds ++ s' /\ run_of p ds.
Proof.
  unfold Plus, run_of. simpl. intros s s'. split.
  - intros [ s1 [ [ c [ -> Hc ] ] [ run [ -> Hrun ] ] ] ].
    exists (String c run). simpl. rewrite Hc. auto.
  - intros [ ds [ -> [ Hne Hds ] ] ].
    destruct ds as [ | c run ]; [ discriminate | ].
    simpl in Hds. apply andb_prop in Hds. destruct Hds as [ Hc Hrun ].
    exists (run ++ s'). split; [ now exists c | now exists run ].
Qed.

Ltac break :=
  repeat match goal with
         | H : exists _, _ |- _ => destruct H
         | H : _ /\ _ |- _ => destruct H
         | H : sem (Lit _) _ _ _ _ |- _ => apply sem_Lit in H
         | H : sem (Plus _) _ _ _ _ |- _ => apply sem_Plus in H
         end.

Lemma changeRegex_sem (s s' : string) (caps' : captures) :
  sem changeRegex s [] s' caps' ->
  exists t after, s = t ++ s' /\ s' = "</span" ++ after /\ delta_token t.
Proof.
  unfold changeRegex. cbn [sem]. intros H.
  destruct H as [ s1 [ caps1 [ [ caps2 [ [ s2 [ caps3 [ [ caps4 [ Hsg _ ] ] Hds ] ] ] _ ] ]
                       [ -> [ after Hlook ] ] ] ] ].
  break. subst.
  match goal with H : run_of _ ?ds |- _ => rename H into Hrun end.
  destruct Hsg as [ Hsg | Hsg ]; break; subst; simpl;
    eexists (String _ _), _; (split; [ reflexivity | ]);
    (split; [ reflexivity | ]);
    eexists _, _; (split; [ reflexivity | ]); (split; [ reflexivity | exact Hrun ]).
Qed.

Lemma changeRegex_lang (t after : string) :
  delta_token t ->
  lang changeRegex (t ++ "</span" ++ after) ("</span" ++ after).
Proof.
  intros [ sg [ ds [ -> [ Hsg Hds ] ] ] ].
  unfold changeRegex. cbn [lang].
  exists ("</span" ++ after). split.
  - exists (ds ++ "</span" ++ after). split.
    + unfold is_sign in Hsg. apply orb_prop in Hsg.
      destruct Hsg as [ Hsg | Hsg ]; apply Ascii.eqb_eq in Hsg; subst sg;
        [ left | right ]; apply lang_Lit; reflexivity.
    + apply lang_Plus. now exists ds.
  - split; [ reflexivity | ]. exists after. now apply lang_Lit.
Qed.

Lemma overallRegex_sem (s s' : string) (caps' : captures) :
  sem overallRegex s [] s' caps' ->
  exists t ws after,
    s = t ++ s' /\ s' = ws ++ "(<span" ++ after /\
    overall_token t /\ JS.forallb JS.is_space ws = true.
Proof.
  unfold overallRegex. cbn [sem]. intros H.
  destruct H as [ s1 [ caps1 [ [ caps2 [ [ s2 [ caps3 [ Hminus Hds ] ] ] _ ] ]
                       [ -> [ after [ s3 [ caps4 [ Hws Hlit ] ] ] ] ] ] ] ].
  break. subst.
  match goal with H : run_of _ ?ds |- _ => rename H into Hrun end.
  match goal with H : JS.forallb JS.is_space ?ws = true |- _ => rename H into Hws end.
  destruct Hminus as [ Hminus | [ <- _ ] ]; break; subst.
  - eexists ("-" ++ _), _, _. split; [ reflexivity | ].
    split; [ reflexivity | ]. split; [ | exact Hws ].
    eexists. split; [ right; reflexivity | exact Hrun ].
  - eexists _, _, _. split; [ reflexivity | ].
    split; [ reflexivity | ]. split; [ | exact Hws ].
    eexists. split; [ left; reflexivity | exact Hrun ].
Qed.

Lemma overallRegex_lang (ds ws after : string) :
  run_of JS.is_digit ds ->
  JS.forallb JS.is_space ws = true ->
  lang overallRegex (ds ++ ws ++ "(<span" ++ after) (ws ++ "(<span" ++ after).
Proof.
  intros Hds Hws. unfold overallRegex. cbn [lang].
  exists (ws ++ "(<span" ++ after). split.
  - exists (ds ++ ws ++ "(<span" ++ after). split; [ now right | ].
    apply lang_Plus. now exists ds.
  - split; [ reflexivity | ]. exists after, ("(<span" ++ after). split.
    + now exists ws.
    + now apply lang_Lit.
Qed.

Lemma teamBracketRegex_sem (s s' : string) (caps' : captures) :
  sem teamBracketRegex s [] s' caps' ->
  exists name ws b,
    s = name ++ ws ++ "(" ++ b ++ ")" ++ s' /\
    JS.forallb JS.any_char name = true /\
    JS.forallb JS.is_space ws = true /\
    bracket_label b /\
    capture 1 caps' = Some name /\ capture 2 caps' = Some b.
Proof.
  unfold teamBracketRegex. cbn [sem]. intros H.
  break. subst.
  match goal with
  | |- exists _ _ _, ?name ++ ?ws ++ "(" ++ ?n1 ++ "v" ++ ?n2 ++ ")" ++ _ = _ /\ _ =>
      exists name, ws, (n1 ++ "v" ++ n2);
      assert (Hcons : n1 ++ "v" ++ n2 ++ ")" ++ s'
                      = (n1 ++ "v" ++ n2) ++ ")" ++ s')
        by (rewrite !append_assoc; reflexivity)
  end.
  rewrite Hcons.
  split; [ reflexivity | ]. split; [ assumption | ]. split; [ assumption | ].
  split; [ eexists _, _; eauto | ].
  cbn [capture Nat.eqb]. split; f_equal; apply taken_append.
Qed.

Lemma teamBracketRegex_lang (b after : string) :
  bracket_label b ->
  lang teamBracketRegex ("(" ++ b ++ ")" ++ after) after.
Proof.
  intros [ n1 [ n2 [ -> [ H1 H2 ] ] ] ].
  unfold teamBracketRegex. cbn [lang].
  exists ("(" ++ (n1 ++ "v" ++ n2) ++ ")" ++ after). split; [ now exists "" | ].
  exists ("(" ++ (n1 ++ "v" ++ n2) ++ ")" ++ after). split; [ now exists "" | ].
  exists ((n1 ++ "v" ++ n2) ++ ")" ++ after). split; [ now apply lang_Lit | ].
  exists (")" ++ after). split; [ | now apply lang_Lit ].
  exists ("v" ++ n2 ++ ")" ++ after). split.
  - apply lang_Plus. exists n1. split; [ | assumption ].
    now rewrite append_assoc.
  - exists (n2 ++ ")" ++ after). split; [ now apply lang_Lit | ].
    apply lang_Plus. now exists n2.
Qed.

(** ** Markup tags *)

Lemma drop_append (a b : string) : drop (String.length a) (a ++ b) = b.
Proof. induction a as [ | c a IH ]; simpl; [ now destruct b | exact IH ]. Qed.

Lemma tagRegex_lang (s s' : string) : lang tagRegex s s' <-> tag_at s s'.
Proof.
  unfold tagRegex, tag_at. cbn [lang]. split.
  - intros [ s1 [ H1 [ s2 [ H2 H3 ] ] ] ].
    apply lang_Lit in H1. apply lang_Lit in H3. apply lang_Plus in H2.
    destruct H2 as [ body [ -> Hbody ] ]. subst. now exists body.
  - intros [ body [ -> Hbody ] ].
    exists (body ++ ">" ++ s'). split; [ now apply lang_Lit | ].
    exists (">" ++ s'). split; [ | now apply lang_Lit ].
    apply lang_Plus. now exists body.
Qed.

Lemma first_close_unique (b1 : string) :
  forall b2 s1 s2,
    JS.forallb (JS.not_char ">") b1 = true ->
    JS.forallb (JS.not_char ">") b2 = true ->
    b1 ++ ">" ++ s1 = b2 ++ ">" ++ s2 ->
    b1 = b2 /\ s1 = s2.
Proof.
  induction b1 as [ | c b1 IH ]; intros [ | d b2 ] s1 s2 H1 H2 Heq; simpl in *.
  - injection Heq as ->. auto.
  - injection Heq as <- _. discriminate.
  - injection Heq as -> _. discriminate.
  - injection Heq as -> Heq.
    apply andb_prop in H1. apply andb_prop in H2.
    destruct (IH b2 s1 s2) as [ -> -> ]; tauto.
Qed.

Lemma tag_at_unique (s s1 s2 : string) : tag_at s s1 -> tag_at s s2 -> s1 = s2.
Proof.
  intros [ b1 [ -> [ _ H1 ] ] ] [ b2 [ Heq [ _ H2 ] ] ].
  simpl in Heq. injection Heq as Heq.
  now destruct (first_close_unique _ _ _ _ H1 H2 Heq).
Qed.

Lemma tag_at_shorter (s s' : string) :
  tag_at s s' -> String.length s' < String.length s.
Proof.
  intros [ body [ -> _ ] ]. simpl. rewrite length_append. simpl. lia.
Qed.

Lemma match_here_tag (s : string) (m : MatchResult) :
  match_here tagRegex s = Some m ->
  tag_at s (rest m) /\ s = whole m ++ rest m.
Proof.
  intros H. apply match_here_sound in H. destruct H as [ Hsem Hs ].
  split; [ | exact Hs ]. apply tagRegex_lang. exact (sem_lang _ _ _ _ _ Hsem).
Qed.

Lemma match_here_no_tag (s : string) :
  match_here tagRegex s = None -> forall s', ~ tag_at s s'.
Proof.
  intros H s' Htag. apply tagRegex_lang in Htag.
  now apply match_here_complete in Htag.
Qed.

Lemma replace_all_empty_skip (r : regex) (n : nat) :
  forall s, replace_all_empty r n s = replace_all_empty r 0 (drop n s).
Proof.
  induction n as [ | n IH ]; intros s; [ now destruct s | ].
  destruct s as [ | c s ]; [ reflexivity | ]. simpl drop. rewrite <- IH.
  reflexivity.
Qed.

Lemma replace_all_empty_cons (r : regex) (c : ascii) (s : string) :
  replace_all_empty r 0 (String c s) =
  match match_here r (String c s) with
  | Some m =>
      match String.length (whole m) with
      | S n => replace_all_empty r n s
      | O => String c (replace_all_empty r 0 s)
      end
  | None => String c (replace_all_empty r 0 s)
  end.
Proof. reflexivity. Qed.

Lemma stripTags_tag (s s' : string) : tag_at s s' -> stripTags s = stripTags s'.
Proof.
  intros Htag. pose proof Htag as [ body [ Hs Hbody ] ].
  destruct (match_here tagRegex s) as [ m | ] eqn:Hm.
  - destruct (match_here_tag _ Hm) as [ Htag' Hwhole ].
    pose proof (tag_at_unique Htag' Htag) as Hrest.
    assert (Hw : whole m = "<" ++ body ++ ">").
    { rewrite <- (taken_append (whole m) (rest m)), <- Hwhole, Hs.
      change ("<" ++ body ++ ">" ++ s') with (String "<" (body ++ ">" ++ s')).
      rewrite <- (append_assoc body ">" s').
      change (String "<" ((body ++ ">") ++ s')) with (("<" ++ body ++ ">") ++ s').
      rewrite Hrest. apply taken_append. }
    unfold stripTags. rewrite Hs.
    change ("<" ++ body ++ ">" ++ s') with (String "<" (body ++ ">" ++ s')).
    rewrite replace_all_empty_cons.
    change (String "<" (body ++ ">" ++ s')) with ("<" ++ body ++ ">" ++ s').
    rewrite <- Hs, Hm, Hw.
    change (String.length ("<" ++ body ++ ">")) with (S (String.length (body ++ ">"))).
    rewrite <- append_assoc.
    rewrite (replace_all_empty_skip tagRegex (String.length (body ++ ">"))
               ((body ++ ">") ++ s')).
    now rewrite drop_append.
  - exfalso. exact (match_here_no_tag Hm Htag).
Qed.

Lemma stripTags_keep (c : ascii) (s : string) :
  (forall s', ~ tag_at (String c s) s') ->
  stripTags (String c s) = String c (stripTags s).
Proof.
  intros Hno. unfold stripTags. rewrite replace_all_empty_cons.
  destruct (match_here tagRegex (String c s)) as [ m | ] eqn:Hm; [ | reflexivity ].
  exfalso. destruct (match_here_tag _ Hm) as [ Htag _ ]. exact (Hno _ Htag).
Qed.

Lemma stripTags_strips_bounded (n : nat) :
  forall s, String.length s <= n -> strips s (stripTags s).
Proof.
  induction n as [ | n IH ]; intros s Hlen.
  - destruct s; [ apply strips_nil | simpl in Hlen; lia ].
  - destruct s as [ | c s ]; [ apply strips_nil | ].
    destruct (match_here tagRegex (String c s)) as [ m | ] eqn:Hm.
    + destruct (match_here_tag _ Hm) as [ Htag _ ].
      rewrite (stripTags_tag Htag). apply (strips_tag Htag).
      apply IH. apply tag_at_shorter in Htag. lia.
    + pose proof (match_here_no_tag Hm) as Hno.
      rewrite (stripTags_keep Hno). apply strips_keep; [ exact Hno | ].
      apply IH. simpl in Hlen. lia.
Qed.

Lemma stripTags_strips (s : string) : strips s (stripTags s).
Proof. now apply (@stripTags_strips_bounded (String.length s)). Qed.

Lemma strips_keeps_no_close (s out : string) :
  strips s out ->
  JS.forallb (JS.not_char ">") s = true ->
  JS.forallb (JS.not_char ">") out = true.
Proof.
  induction 1 as [ | s s' out Htag _ IH | c s out _ _ IH ]; intros Hs.
  - reflexivity.
  - exfalso. destruct Htag as [ body [ -> _ ] ].
    simpl in Hs. rewrite forallb_append in Hs. simpl in Hs.
    rewrite andb_false_r in Hs. discriminate.
  - simpl in *. apply andb_prop in Hs. destruct Hs as [ -> Hs ]. auto.
Qed.

Lemma strips_close_first (r out : string) :
  strips (String ">" r) out -> exists out', out = String ">" out'.
Proof.
  intros H. remember (String ">" r) as s eqn:Hs.
  induction H as [ | s s' out Htag _ _ | c s out _ _ _ ].
  - discriminate.
  - exfalso. destruct Htag as [ body [ Heq _ ] ]. rewrite Hs in Heq.
    discriminate.
  - injection Hs as -> ->. now exists out.
Qed.

Lemma split_first_close (s : string) :
  JS.forallb (JS.not_char ">") s = false ->
  exists b r, s = b ++ ">" ++ r /\ JS.forallb (JS.not_char ">") b = true.
Proof.
  induction s as [ | c s IH ]; simpl; [ discriminate | ].
  destruct (JS.not_char ">" c) eqn:Hc; simpl.
  - intros Hs. destruct (IH Hs) as [ b [ r [ -> Hb ] ] ].
    exists (String c b), r. simpl. now rewrite Hc.
  - intros _. exists "", s. split; [ | reflexivity ].
    unfold JS.not_char in Hc. apply negb_false_iff, Ascii.eqb_eq in Hc.
    now subst c.
Qed.

(** Nothing that was kept reads as a tag. *)
Lemma strips_no_tag (s out : string) :
  strips s out ->
  forall before t t', out = before ++ t -> ~ tag_at t t'.
Proof.
  induction 1 as [ | s s' out Htag _ IH | c s out Hno Hstrips IH ];
    intros before t t' Hout Ht.
  - destruct before; [ | discriminate ]. simpl in Hout. subst t.
    destruct Ht as [ body [ Heq _ ] ]. discriminate.
  - exact (IH _ _ _ Hout Ht).
  - destruct before as [ | c' before ].
    + simpl in Hout. subst t.
      destruct Ht as [ body [ Heq [ Hne Hbody ] ] ].
      simpl in Heq. injection Heq as -> ->.
      destruct (JS.forallb (JS.not_char ">") s) eqn:Hs.
      * apply (strips_keeps_no_close Hstrips) in Hs.
        rewrite forallb_append in Hs. simpl in Hs.
        rewrite andb_false_r in Hs. discriminate.
      * destruct (split_first_close _ Hs) as [ b [ r [ -> Hb ] ] ].
        destruct b as [ | x b ].
        -- apply strips_close_first in Hstrips.
           destruct Hstrips as [ out' Hout' ].
           destruct body as [ | y body ]; [ discriminate | ].
           simpl in Hout'. injection Hout' as -> _.
           simpl in Hbody. discriminate.
        -- apply (Hno r). exists (String x b). repeat split; auto.
    + simpl in Hout. injection Hout as _ Hout. exact (IH _ _ _ Hout Ht).
Qed.

(** ** The normaliser, field by field *)

Ltac format_simpl :=
  cbn [ realm charname class race gender teamname teamnamerich damageDone
        deaths healingDone killingBlows matchmaking_change personal_change
        set_teamnamerich set_matchmaking_change set_personal_change
        option_map ].

Ltac format_cases cd :=
  unfold formatCharacterDetail, formatChange, deltaOf, overallOf;
  destruct cd as [ ? ? ? ? ? ? ? ? ? ? ? mm pc ];
  format_simpl;
  destruct mm as [ raw | ];
  repeat (format_simpl;
          match goal with
          | H : JS.truthy ?x = _ |- context [ JS.truthy ?x ] => rewrite H
          | H : String_match ?r ?x = _ |- context [ String_match ?r ?x ] =>
              rewrite H
          | |- context [ JS.truthy ?x ] =>
              is_var x; destruct (JS.truthy x) eqn:?
          | |- context [ String_match ?r ?x ] =>
              is_var x; destruct (String_match r x) eqn:?
          end);
  format_simpl.

Lemma format_teamnamerich (cd : CharacterDetail) :
  teamnamerich (formatCharacterDetail cd) = stripTags (teamnamerich cd).
Proof. format_cases cd; reflexivity. Qed.

Lemma format_matchmaking_change (cd : CharacterDetail) :
  matchmaking_change (formatCharacterDetail cd) =
  match matchmaking_change cd with
  | Some raw => Some (if JS.truthy raw then formatChange raw else raw)
  | None => None
  end.
Proof. format_cases cd; reflexivity. Qed.

Lemma format_personal_change (cd : CharacterDetail) :
  personal_change (formatCharacterDetail cd) =
  if JS.truthy (personal_change cd) then formatChange (personal_change cd)
  else personal_change cd.
Proof. format_cases cd; reflexivity. Qed.

Lemma format_frame (cd : CharacterDetail) :
  let cd' := formatCharacterDetail cd in
  realm cd' = realm cd /\ charname cd' = charname cd /\
  class cd' = class cd /\ race cd' = race cd /\ gender cd' = gender cd /\
  teamname cd' = teamname cd /\ damageDone cd' = damageDone cd /\
  deaths cd' = deaths cd /\ healingDone cd' = healingDone cd /\
  killingBlows cd' = killingBlows cd.
Proof. format_cases cd; repeat split; reflexivity. Qed.

Lemma truthy_nonempty (s : string) : s <> "" -> JS.truthy s = true.
Proof. destruct s; [ congruence | reflexivity ]. Qed.

Lemma append_cancel_r (a b c : string) : a ++ c = b ++ c -> a = b.
Proof.
  intros H. rewrite <- (taken_append a c), H. apply taken_append.
Qed.

Lemma deltaOf_token (raw delta : string) :
  deltaOf raw = Some delta -> delta_token delta.
Proof.
  unfold deltaOf. destruct (String_match changeRegex raw) as [ m | ] eqn:Hm;
    [ | discriminate ].
  simpl. intros H. injection H as <-.
  apply String_match_sound in Hm. destruct Hm as [ before [ _ Hsem ] ].
  apply changeRegex_sem in Hsem. destruct Hsem as [ t [ after [ Ht [ _ Htok ] ] ] ].
  apply append_cancel_r in Ht. now subst t.
Qed.

Lemma overallOf_token (raw overall : string) :
  overallOf raw = Some overall -> overall_token overall.
Proof.
  unfold overallOf. destruct (String_match overallRegex raw) as [ m | ] eqn:Hm;
    [ | discriminate ].
  simpl. intros H. injection H as <-.
  apply String_match_sound in Hm. destruct Hm as [ before [ _ Hsem ] ].
  apply overallRegex_sem in Hsem.
  destruct Hsem as [ t [ ws [ after [ Ht [ _ [ Htok _ ] ] ] ] ] ].
  apply append_cancel_r in Ht. now subst t.
Qed.

Lemma deltaOf_has_delta (raw : string) : deltaOf raw <> None <-> has_delta raw.
Proof.
  unfold deltaOf, has_delta. split.
  - destruct (String_match changeRegex raw) as [ m | ] eqn:Hm; [ | now simpl ].
    intros _. apply String_match_sound in Hm.
    destruct Hm as [ before [ Hraw Hsem ] ].
    apply changeRegex_sem in Hsem.
    destruct Hsem as [ t [ after [ Ht [ Hrest Htok ] ] ] ].
    exists before, t, after. rewrite Hraw, Ht, Hrest. auto.
  - intros [ before [ t [ after [ -> Htok ] ] ] ].
    pose proof (@String_match_complete _ before _ _ (@changeRegex_lang t after Htok))
      as H.
    now destruct (String_match changeRegex _).
Qed.

Lemma overallOf_has_overall (raw : string) :
  overallOf raw <> None <-> has_overall raw.
Proof.
  unfold overallOf, has_overall. split.
  - destruct (String_match overallRegex raw) as [ m | ] eqn:Hm; [ | now simpl ].
    intros _. apply String_match_sound in Hm.
    destruct Hm as [ before [ Hraw Hsem ] ].
    apply overallRegex_sem in Hsem.
    destruct Hsem as [ t [ ws [ after [ Ht [ Hrest [ [ ds [ Hds Hrun ] ] Hws ] ] ] ] ] ].
    rewrite Hraw, Ht, Hrest. destruct Hds as [ -> | -> ].
    + exists before, ds, ws, after. auto.
    + exists (before ++ "-"), ds, ws, after. rewrite !append_assoc. auto.
  - intros [ before [ ds [ ws [ after [ -> [ Hds Hws ] ] ] ] ] ].
    pose proof (@String_match_complete _ before _ _
                  (@overallRegex_lang ds ws after Hds Hws)) as H.
    now destruct (String_match overallRegex _).
Qed.

(** ** Values of the payload's form *)

Lemma space_not_digit (c : ascii) :
  JS.is_space c = true -> JS.is_digit c = false.
Proof.
  unfold JS.is_space, JS.is_digit. intros Hs.
  destruct (48 <=? JS.code c)%nat eqn:H1; [ | reflexivity ].
  destruct (JS.code c <=? 57)%nat eqn:H2; [ | reflexivity ].
  apply Nat.leb_le in H1, H2. exfalso.
  apply orb_prop in Hs. destruct Hs as [ Hs | Hs ].
  - apply orb_prop in Hs. destruct Hs as [ Hs | Hs ].
    + apply andb_prop in Hs. destruct Hs as [ _ Hs ].
      apply Nat.leb_le in Hs. lia.
    + apply Nat.eqb_eq in Hs. lia.
  - apply Nat.eqb_eq in Hs. lia.
Qed.

Lemma digit_prefix_unique (a : string) :
  forall b x y,
    JS.forallb JS.is_digit a = true ->
    JS.forallb JS.is_digit b = true ->
    ends_digits x -> ends_digits y ->
    a ++ x = b ++ y -> a = b /\ x = y.
Proof.
  induction a as [ | c a IH ]; intros [ | d b ] x y Ha Hb Hx Hy Heq;
    simpl in *.
  - auto.
  - subst x. simpl in Hx. apply andb_prop in Hb. destruct Hb as [ Hd _ ].
    congruence.
  - subst y. simpl in Hy. apply andb_prop in Ha. destruct Ha as [ Hc _ ].
    congruence.
  - injection Heq as -> Heq.
    apply andb_prop in Ha. apply andb_prop in Hb.
    destruct (IH b x y) as [ -> -> ]; tauto.
Qed.

Lemma String_match_here (r : regex) (s : string) (m : MatchResult) :
  match_here r s = Some m -> String_match r s = Some m.
Proof. intros H. destruct s; simpl; now rewrite H. Qed.

Lemma match_here_change_sign (c : ascii) (s : string) (m : MatchResult) :
  match_here changeRegex (String c s) = Some m ->
  is_sign c = true /\ starts_digit s = true.
Proof.
  intros H. apply match_here_sound in H. destruct H as [ Hsem _ ].
  apply changeRegex_sem in Hsem.
  destruct Hsem
    as [ t [ after [ Ht [ _ [ sg [ ds [ -> [ Hsg [ Hne Hds ] ] ] ] ] ] ] ] ].
  simpl in Ht. injection Ht as -> ->. split; [ exact Hsg | ].
  destruct ds as [ | d ds ]; [ discriminate | ].
  simpl in *. now apply andb_prop in Hds.
Qed.

Lemma String_match_change_skip (before : string) :
  forall s,
    calm_before before s = true ->
    String_match changeRegex (before ++ s) = String_match changeRegex s.
Proof.
  induction before as [ | c before IH ]; intros s Hcalm; [ reflexivity | ].
  simpl in Hcalm. apply andb_prop in Hcalm. destruct Hcalm as [ Hc Hcalm ].
  simpl append. cbn [String_match].
  destruct (match_here changeRegex (String c (before ++ s))) as [ m | ] eqn:Hm.
  - apply match_here_change_sign in Hm. destruct Hm as [ H1 H2 ].
    rewrite H1, H2 in Hc. discriminate.
  - now apply IH.
Qed.

Lemma calm_before_append (a : string) :
  forall b s,
    calm_before (a ++ b) s = calm_before a (b ++ s) && calm_before b s.
Proof.
  induction a as [ | c a IH ]; intros b s; simpl; [ reflexivity | ].
  now rewrite IH, append_assoc, andb_assoc.
Qed.

Lemma calm_before_no_sign (a s : string) :
  JS.forallb no_sign a = true -> calm_before a s = true.
Proof.
  induction a as [ | c a IH ]; simpl; [ reflexivity | ].
  intros H. apply andb_prop in H. destruct H as [ Hc H ].
  unfold no_sign in Hc. apply negb_true_iff in Hc. rewrite Hc. simpl. auto.
Qed.

Lemma calm_before_no_digit (a : string) :
  forall s,
    JS.forallb no_digit a = true -> starts_digit s = false ->
    calm_before a s = true.
Proof.
  induction a as [ | c a IH ]; simpl; [ reflexivity | ].
  intros s H Hs. apply andb_prop in H. destruct H as [ Hc H ].
  rewrite (IH s H Hs), andb_true_r.
  assert (Hnext : starts_digit (a ++ s) = false).
  { destruct a as [ | d a ]; simpl; [ exact Hs | ].
    simpl in H. apply andb_prop in H. destruct H as [ Hd _ ].
    unfold no_digit in Hd. now apply negb_true_iff in Hd. }
  rewrite Hnext, andb_false_r. reflexivity.
Qed.

Lemma digits_no_sign (s : string) :
  JS.forallb JS.is_digit s = true -> JS.forallb no_sign s = true.
Proof.
  induction s as [ | c s IH ]; simpl; [ reflexivity | ].
  intros H. apply andb_prop in H. destruct H as [ Hc H ].
  rewrite (IH H), andb_true_r. unfold no_sign, is_sign, JS.is_char.
  destruct (Ascii.eqb "+" c) eqn:E1;
    [ apply Ascii.eqb_eq in E1; subst c; discriminate | ].
  destruct (Ascii.eqb "-" c) eqn:E2;
    [ apply Ascii.eqb_eq in E2; subst c; discriminate | ].
  reflexivity.
Qed.

Lemma deltaOf_here (sg : ascii) (ds after : string) :
  is_sign sg = true -> run_of JS.is_digit ds ->
  deltaOf (String sg ds ++ "</span" ++ after) = Some (String sg ds).
Proof.
  intros Hsg Hds. unfold deltaOf.
  assert (Htok : delta_token (String sg ds)) by now exists sg, ds.
  pose proof (@match_here_complete _ _ _ (@changeRegex_lang _ after Htok)) as Hc.
  destruct (match_here changeRegex (String sg ds ++ "</span" ++ after))
    as [ m | ] eqn:Hm; [ | congruence ].
  rewrite (String_match_here _ _ Hm). simpl. f_equal.
  apply match_here_sound in Hm. destruct Hm as [ Hsem Hs ].
  apply changeRegex_sem in Hsem.
  destruct Hsem as [ t [ after' [ Ht [ Hrest [ sg' [ ds' [ -> [ _ Hds' ] ] ] ] ] ] ] ].
  rewrite Hs in Ht. apply append_cancel_r in Ht. rewrite Ht.
  rewrite Ht, Hrest in Hs. simpl in Hs. injection Hs as -> Hs.
  destruct (@digit_prefix_unique ds ds' ("</span" ++ after) ("</span" ++ after'))
    as [ -> _ ]; try reflexivity; try tauto.
  - exact (proj2 Hds).
  - exact (proj2 Hds').
Qed.

Lemma overallOf_here (overall ws after : string) :
  run_of JS.is_digit overall -> JS.forallb JS.is_space ws = true ->
  overallOf (overall ++ ws ++ "(<span" ++ after) = Some overall.
Proof.
  intros Ho Hws. unfold overallOf.
  pose proof (@match_here_complete _ _ _ (@overallRegex_lang _ _ after Ho Hws))
    as Hc.
  destruct (match_here overallRegex (overall ++ ws ++ "(<span" ++ after))
    as [ m | ] eqn:Hm; [ | congruence ].
  rewrite (String_match_here _ _ Hm). simpl. f_equal.
  apply match_here_sound in Hm. destruct Hm as [ Hsem Hs ].
  apply overallRegex_sem in Hsem.
  destruct Hsem as [ t [ ws' [ after' [ Ht [ Hrest [ [ ds' [ Hds' Hrun' ] ] Hws' ] ] ] ] ] ].
  rewrite Hs in Ht. apply append_cancel_r in Ht. rewrite Ht.
  rewrite Ht, Hrest in Hs.
  assert (Hend : forall w rest, JS.forallb JS.is_space w = true ->
                                ends_digits (w ++ "(<span" ++ rest)).
  { intros [ | c w ] rest Hw; simpl; [ reflexivity | ].
    simpl in Hw. apply andb_prop in Hw. now apply space_not_digit. }
  destruct Ho as [ Hne Ho ]. destruct Hds' as [ -> | -> ].
  - destruct (@digit_prefix_unique overall ds' (ws ++ "(<span" ++ after)
                (ws' ++ "(<span" ++ after')) as [ -> _ ]; auto.
    exact (proj2 Hrun').
  - destruct overall as [ | c overall ]; [ discriminate | ].
    simpl in Hs. injection Hs as -> _. simpl in Ho. discriminate.
Qed.

(** ** The team/bracket split *)

Lemma splitTeamBracket_fallback (text : string) :
  ~ has_bracket text -> splitTeamBracket text = ("", "").
Proof.
  intros Hno. unfold splitTeamBracket.
  destruct (JS.truthy text); [ | reflexivity ].
  destruct (String_match teamBracketRegex text) as [ m | ] eqn:Hm;
    [ | reflexivity ].
  exfalso. apply Hno. apply String_match_sound in Hm.
  destruct Hm as [ before [ Htext Hsem ] ].
  apply teamBracketRegex_sem in Hsem.
  destruct Hsem as [ name [ ws [ b [ Heq [ _ [ _ [ Hb _ ] ] ] ] ] ] ].
  exists (before ++ name ++ ws), b, (rest m). split; [ | exact Hb ].
  rewrite Htext, Heq, !append_assoc. reflexivity.
Qed.

Lemma splitTeamBracket_match (text : string) :
  has_bracket text ->
  exists before name ws b after,
    text = before ++ name ++ ws ++ "(" ++ b ++ ")" ++ after /\
    JS.forallb JS.any_char name = true /\
    JS.forallb JS.is_space ws = true /\
    bracket_label b /\
    splitTeamBracket text = (name, b).
Proof.
  intros [ before0 [ b0 [ after0 [ Htext Hb0 ] ] ] ].
  unfold splitTeamBracket.
  assert (Htruthy : JS.truthy text = true).
  { rewrite Htext. now destruct before0. }
  rewrite Htruthy.
  destruct (String_match teamBracketRegex text) as [ m | ] eqn:Hm.
  - apply String_match_sound in Hm. destruct Hm as [ before [ Hraw Hsem ] ].
    apply teamBracketRegex_sem in Hsem.
    destruct Hsem as [ name [ ws [ b [ Heq [ Hname [ Hws [ Hb [ H1 H2 ] ] ] ] ] ] ] ].
    exists before, name, ws, b, (rest m).
    unfold nth_group. rewrite H1, H2, Hraw, Heq. auto.
  - exfalso. revert Hm. rewrite Htext.
    apply String_match_complete with (s' := after0).
    now apply teamBracketRegex_lang.
Qed.

Lemma extractRow_split (element : Row) :
  MatchSummary.team_name (extractRow element)
    = fst (splitTeamBracket (JS.trim (td2_a element))) /\
  MatchSummary.bracket (extractRow element)
    = snd (splitTeamBracket (JS.trim (td2_a element))).
Proof.
  unfold extractRow. now destruct (splitTeamBracket _).
Qed.

(** * The claims about the normaliser and the extractor *)

(** C4. For a change field that is present and not empty: when both the
    delta and the overall value are extracted from the raw value, the field
    becomes the delta, a space, and the overall value in parentheses;
    when either is not extracted the field keeps its raw value.  A delta
    is a sign followed by digits and an overall value is digits with an
    optional minus sign.  The raw value "200 (<span ...>+15</span>)"
    becomes "+15 (200)". *)
Theorem formatCharacterDetail_change_fields :
  forall cd : CharacterDetail,
    (forall raw,
       matchmaking_change cd = Some raw -> raw <> "" ->
       (forall delta overall,
          deltaOf raw = Some delta -> overallOf raw = Some overall ->
          matchmaking_change (formatCharacterDetail cd)
            = Some (delta ++ " (" ++ overall ++ ")")) /\
       (deltaOf raw = None \/ overallOf raw = None ->
        matchmaking_change (formatCharacterDetail cd) = Some raw)) /\
    (personal_change cd <> "" ->
       (forall delta overall,
          deltaOf (personal_change cd) = Some delta ->
          overallOf (personal_change cd) = Some overall ->
          personal_change (formatCharacterDetail cd)
            = delta ++ " (" ++ overall ++ ")") /\
       (deltaOf (personal_change cd) = None \/
        overallOf (personal_change cd) = None ->
        personal_change (formatCharacterDetail cd) = personal_change cd)) /\
    (forall raw delta, deltaOf raw = Some delta -> delta_token delta) /\
    (forall raw overall, overallOf raw = Some overall -> overall_token overall) /\
    (personal_change cd = "200 (<span class='history-win'>+15</span>)" ->
     personal_change (formatCharacterDetail cd) = "+15 (200)").
Proof.
  intros cd. split; [ | split; [ | split; [ | split ] ] ].
  - intros raw Hraw Hne. rewrite format_matchmaking_change, Hraw.
    rewrite (truthy_nonempty Hne). unfold formatChange. split.
    + intros delta overall -> ->. reflexivity.
    + intros [ -> | -> ]; [ reflexivity | now destruct (deltaOf raw) ].
  - intros Hne. rewrite format_personal_change.
    rewrite (truthy_nonempty Hne). unfold formatChange. split.
    + intros delta overall -> ->. reflexivity.
    + intros [ -> | -> ]; [ reflexivity | ].
      now destruct (deltaOf (personal_change cd)).
  - exact deltaOf_token.
  - exact overallOf_token.
  - intros Hraw. rewrite format_personal_change, Hraw. reflexivity.
Qed.

Lemma formatCharacterDetail_change_fields_witness :
  personal_change (formatCharacterDetail sampleCharacter) = "+15 (200)" /\
  matchmaking_change (formatCharacterDetail sampleCharacter) = None.
Proof.
  split; [ | reflexivity ].
  refine (proj1 (proj1 (proj2 (formatCharacterDetail_change_fields
                                 sampleCharacter)) _)
            "+15" "200" eq_refl eq_refl).
  discriminate.
Defined.

(** X1. A raw value of the form the payload has, the overall digits, a
    space, "(<span", attributes that hold no digit, ">", a sign and digits
    and "</span>)", becomes the sign and digits, a space, and the overall
    digits in parentheses. *)
Theorem formatChange_payload :
  forall (overall attrs : string) (sg : ascii) (ds : string),
    run_of JS.is_digit overall ->
    JS.forallb no_digit attrs = true ->
    is_sign sg = true ->
    run_of JS.is_digit ds ->
    formatChange
      (overall ++ " (<span" ++ attrs ++ ">" ++ String sg ds ++ "</span>)")
    = String sg ds ++ " (" ++ overall ++ ")".
Proof.
  intros overall attrs sg ds Ho Hattrs Hsg Hds. unfold formatChange.
  assert (Hdelta : deltaOf
            (overall ++ " (<span" ++ attrs ++ ">" ++ String sg ds ++ "</span>)")
          = Some (String sg ds)).
  { rewrite <- (@deltaOf_here sg ds ">)" Hsg Hds). unfold deltaOf. f_equal.
    replace (overall ++ " (<span" ++ attrs ++ ">" ++ String sg ds ++ "</span>)")
      with ((overall ++ " (<span" ++ attrs ++ ">")
            ++ String sg ds ++ "</span" ++ ">)").
    - apply String_match_change_skip.
      rewrite calm_before_append. apply andb_true_intro. split.
      + apply calm_before_no_sign, digits_no_sign, Ho.
      + match goal with
        | |- calm_before _ ?x = true =>
            assert (Hsplit :
                      calm_before (" (<span" ++ attrs ++ ">") x =
                      calm_before " (<span" ((attrs ++ ">") ++ x) &&
                      calm_before (attrs ++ ">") x)
              by apply calm_before_append
        end.
        rewrite Hsplit. apply andb_true_intro. split.
        * now apply calm_before_no_sign.
        * rewrite calm_before_append. apply andb_true_intro. split.
          -- now apply calm_before_no_digit.
          -- reflexivity.
    - rewrite append_assoc. simpl. rewrite append_assoc. reflexivity. }
  rewrite Hdelta.
  pose proof (@overallOf_here overall " "
                (attrs ++ ">" ++ String sg ds ++ "</span>)") Ho eq_refl)
    as Hoverall.
  simpl in Hoverall. simpl. rewrite Hoverall. reflexivity.
Qed.

Lemma formatChange_payload_witness :
  formatChange "1543 (<span class='history-win'>+12</span>)" = "+12 (1543)".
Proof.
  apply (@formatChange_payload "1543" " class='history-win'" "+" "12");
    repeat split.
Defined.

(** C5 (amended). The delta is extracted exactly from the raw values that
    hold a sign and one or more digits right before the text "</span", and
    the overall value exactly from those that hold one or more digits, then
    optional white space, then the text "(<span"; in particular the overall
    value is extracted from every raw value in which a digit run is
    followed by optional white space and "(<span". *)
Theorem extraction_success :
  forall raw : string,
    (deltaOf raw <> None <-> has_delta raw) /\
    (overallOf raw <> None <-> has_overall raw) /\
    (forall before ds ws after,
       raw = before ++ ds ++ ws ++ "(<span" ++ after ->
       run_of JS.is_digit ds ->
       JS.forallb JS.is_space ws = true ->
       exists overall, overallOf raw = Some overall).
Proof.
  intros raw. split; [ apply deltaOf_has_delta | ].
  split; [ apply overallOf_has_overall | ].
  intros before ds ws after Hraw Hds Hws.
  destruct (overallOf raw) as [ overall | ] eqn:Ho; [ now exists overall | ].
  exfalso. revert Ho. apply overallOf_has_overall.
  now exists before, ds, ws, after.
Qed.

Lemma extraction_success_witness :
  deltaOf "200 (<span class='history-win'>+15</span>)" <> None /\
  overallOf "200 (<span class='history-win'>+15</span>)" <> None.
Proof.
  split.
  - apply (proj2 (proj1 (extraction_success
                           "200 (<span class='history-win'>+15</span>)"))).
    exists "200 (<span class='history-win'>", "+15", ">)".
    split; [ reflexivity | ]. exists "+"%char, "15". repeat split.
  - apply (proj2 (proj1 (proj2 (extraction_success
                           "200 (<span class='history-win'>+15</span>)")))).
    exists "", "200", " ", " class='history-win'>+15</span>)".
    repeat split.
Defined.

(** C5 as stated fails: in "200<span>+15</span>" a digit run stands right
    before an open tag and no overall value is extracted, and in
    "+15</div>" a sign and digits stand right before a close tag and no
    delta is extracted. *)
Lemma extraction_needs_span_and_parenthesis :
  (spec_has_overall "200<span>+15</span>" /\
   overallOf "200<span>+15</span>" = None) /\
  (spec_has_delta "+15</div>" /\ deltaOf "+15</div>" = None).
Proof.
  split; (split; [ | reflexivity ]).
  - exists "", "200", "<span>+15</span>". split; [ reflexivity | ]. split.
    + exists "200". split; [ now left | now split ].
    + exists "s"%char, "pan>+15</span>". split; [ reflexivity | discriminate ].
  - exists "", "+15", "</div>". split; [ reflexivity | ]. split.
    + exists "+"%char, "15". repeat split.
    + now exists "div>".
Qed.

(** C6. The normaliser rewrites [teamnamerich] by dropping, from left to
    right, every tag ("<", one or more code units other than ">", ">") and
    keeping everything else; nothing in the result reads as a tag; and
    "<span>Team Alpha</span>" becomes "Team Alpha". *)
Theorem formatCharacterDetail_strips_tags :
  forall cd : CharacterDetail,
    strips (teamnamerich cd) (teamnamerich (formatCharacterDetail cd)) /\
    (forall before t t',
       teamnamerich (formatCharacterDetail cd) = before ++ t ->
       ~ tag_at t t') /\
    (teamnamerich cd = "<span>Team Alpha</span>" ->
     teamnamerich (formatCharacterDetail cd) = "Team Alpha").
Proof.
  intros cd. rewrite format_teamnamerich. split; [ | split ].
  - apply stripTags_strips.
  - apply (strips_no_tag (stripTags_strips (teamnamerich cd))).
  - intros ->. reflexivity.
Qed.

Lemma formatCharacterDetail_strips_tags_witness :
  teamnamerich (formatCharacterDetail sampleCharacter) = "Team Alpha".
Proof.
  exact (proj2 (proj2 (formatCharacterDetail_strips_tags sampleCharacter))
           eq_refl).
Defined.

(** C7. For every row, with the trimmed text of the link in the second
    cell: "Alpha Strike (2v2)" gives team name "Alpha Strike" and bracket
    "2v2"; a text that holds no bracket label between parentheses gives
    the empty team name and the empty bracket; and a text that holds one
    gives a bracket label, with the team name standing before it. *)
Theorem extractRow_team_bracket :
  forall element : Row,
    (JS.trim (td2_a element) = "Alpha Strike (2v2)" ->
     MatchSummary.team_name (extractRow element) = "Alpha Strike" /\
     MatchSummary.bracket (extractRow element) = "2v2") /\
    (~ has_bracket (JS.trim (td2_a element)) ->
     MatchSummary.team_name (extractRow element) = "" /\
     MatchSummary.bracket (extractRow element) = "") /\
    (has_bracket (JS.trim (td2_a element)) ->
     bracket_label (MatchSummary.bracket (extractRow element)) /\
     exists before ws after,
       JS.trim (td2_a element) =
         before ++ MatchSummary.team_name (extractRow element) ++ ws ++
         "(" ++ MatchSummary.bracket (extractRow element) ++ ")" ++ after /\
       JS.forallb JS.is_space ws = true).
Proof.
  intros element. destruct (extractRow_split element) as [ -> -> ].
  split; [ | split ].
  - intros ->. split; reflexivity.
  - intros Hno. rewrite (splitTeamBracket_fallback Hno). split; reflexivity.
  - intros Hb. destruct (splitTeamBracket_match Hb)
      as [ before [ name [ ws [ b [ after [ Htext [ _ [ Hws [ Hlabel -> ] ] ] ] ] ] ] ] ].
    simpl. split; [ exact Hlabel | ]. now exists before, ws, after.
Qed.

Lemma extractRow_team_bracket_witness :
  MatchSummary.team_name (extractRow (sampleRow "  Alpha Strike (2v2) "))
    = "Alpha Strike" /\
  MatchSummary.bracket (extractRow (sampleRow "  Alpha Strike (2v2) "))
    = "2v2".
Proof.
  exact (proj1 (extractRow_team_bracket (sampleRow "  Alpha Strike (2v2) "))
           eq_refl).
Defined.

(** C8. The normaliser leaves every field other than [teamnamerich],
    [matchmaking_change] and [personal_change] as it was; a
    [matchmaking_change] that is absent stays absent (and only then is it
    absent afterwards), and a change field that is empty stays empty. *)
Theorem formatCharacterDetail_frame :
  forall cd : CharacterDetail,
    realm (formatCharacterDetail cd) = realm cd /\
    charname (formatCharacterDetail cd) = charname cd /\
    class (formatCharacterDetail cd) = class cd /\
    race (formatCharacterDetail cd) = race cd /\
    gender (formatCharacterDetail cd) = gender cd /\
    teamname (formatCharacterDetail cd) = teamname cd /\
    damageDone (formatCharacterDetail cd) = damageDone cd /\
    deaths (formatCharacterDetail cd) = deaths cd /\
    healingDone (formatCharacterDetail cd) = healingDone cd /\
    killingBlows (formatCharacterDetail cd) = killingBlows cd /\
    (matchmaking_change (formatCharacterDetail cd) = None <->
     matchmaking_change cd = None) /\
    (matchmaking_change cd = Some "" ->
     matchmaking_change (formatCharacterDetail cd) = Some "") /\
    (personal_change cd = "" ->
     personal_change (formatCharacterDetail cd) = "").
Proof.
  intros cd. pose proof (format_frame cd) as Hframe. simpl in Hframe.
  repeat (split; [ tauto | ]).
  rewrite format_matchmaking_change, format_personal_change.
  split; [ | split ].
  - destruct (matchmaking_change cd); split; congruence.
  - intros ->. reflexivity.
  - intros ->. reflexivity.
Qed.

Lemma formatCharacterDetail_frame_witness :
  matchmaking_change (formatCharacterDetail sampleCharacter) = None /\
  charname (formatCharacterDetail sampleCharacter) = "Ziggy".
Proof.
  split.
  - exact (proj2 (proj1 (proj2 (proj2 (proj2 (proj2 (proj2 (proj2 (proj2
             (proj2 (proj2 (proj2
               (formatCharacterDetail_frame sampleCharacter)))))))))))) eq_refl).
  - exact (proj1 (proj2 (formatCharacterDetail_frame sampleCharacter))).
Defined.

(** * Properties of the aggregator *)

Section AggregatorFacts.

Variable fetchMatchData :
  nat -> FetchParams.t -> Outcome (list CharacterDetail).
Variable params : Params.t.

Lemma loopBody_eq (matchId : string) (acc : list MatchDetails.t) (w : World) :
  loopBody fetchMatchData params matchId acc w =
  ({| calls := S (calls w);
      log := (log w ++ [Submit (calls w); Settle (calls w)])%list |},
   match fetchMatchData (calls w) (request params matchId) with
   | Fulfilled batch => Fulfilled (acc ++ joinOne params matchId batch)%list
   | Rejected e => Rejected e
   end).
Proof.
  unfold loopBody, bind, limitedFetchMatchData, joinOne, lookup, request.
  destruct (fetchMatchData _ _) as [batch | e]; [ | reflexivity ].
  destruct (find _ _); unfold ret; [ reflexivity | ].
  now rewrite app_nil_r.
Qed.

Lemma forOf_result (matchIds : list string) :
  forall (acc : list MatchDetails.t) (w : World),
    snd (forOf fetchMatchData params matchIds acc w) =
    match joinFrom fetchMatchData params (calls w) matchIds with
    | Fulfilled more => Fulfilled (acc ++ more)%list
    | Rejected e => Rejected e
    end.
Proof.
  induction matchIds as [ | matchId matchIds IH ]; intros acc w; simpl.
  - now rewrite app_nil_r.
  - unfold bind. rewrite loopBody_eq.
    destruct (fetchMatchData _ _) as [batch | e]; [ | reflexivity ].
    rewrite IH. simpl.
    destruct (joinFrom _ _ _ _) as [more | e]; [ | reflexivity ].
    now rewrite app_assoc.
Qed.

Lemma forOf_log (matchIds : list string) :
  forall (acc : list MatchDetails.t) (w : World),
    exists k,
      k <= List.length matchIds /\
      log (fst (forOf fetchMatchData params matchIds acc w)) =
      (log w ++ sequential (calls w) k)%list.
Proof.
  induction matchIds as [ | matchId matchIds IH ]; intros acc w; simpl.
  - exists 0. split; [ lia | ]. simpl. now rewrite app_nil_r.
  - unfold bind. rewrite loopBody_eq.
    destruct (fetchMatchData _ _) as [batch | e].
    + destruct (IH (acc ++ joinOne params matchId batch)%list
                  {| calls := S (calls w);
                     log := (log w ++ [Submit (calls w); Settle (calls w)])%list |})
        as [k [Hk Hlog]].
      exists (S k). split; [ lia | ].
      rewrite Hlog. simpl. now rewrite <- app_assoc.
    + exists 1. split; [ lia | ]. reflexivity.
Qed.

Lemma in_flight_sequential (k : nat) :
  forall n j, in_flight (firstn j (sequential n k)) <= 1.
Proof.
  unfold in_flight.
  induction k as [ | k IH ]; intros n j; simpl.
  - rewrite firstn_nil. simpl. lia.
  - destruct j as [ | [ | j ] ]; simpl; try lia.
    apply IH.
Qed.

End AggregatorFacts.

Section JoinFacts.

Variable fetchMatchData :
  nat -> FetchParams.t -> Outcome (list CharacterDetail).
Variable params : Params.t.

Lemma lookup_some (matchId : string) (s : MatchSummary.t) :
  lookup params matchId = Some s ->
  In s (Params.matchSummaries params) /\ MatchSummary.matchId s = matchId.
Proof.
  unfold lookup. intros H. apply find_some in H. destruct H as [Hin Heq].
  split; [ exact Hin | ]. now apply String.eqb_eq.
Qed.

Lemma lookup_has_summary (matchId : string) :
  has_summary params matchId =
  match lookup params matchId with Some _ => true | None => false end.
Proof.
  unfold has_summary, lookup.
  induction (Params.matchSummaries params) as [ | s l IH ]; simpl.
  - reflexivity.
  - destruct (String.eqb (MatchSummary.matchId s) matchId); simpl; auto.
Qed.

Lemma lookup_own (s : MatchSummary.t) :
  In s (Params.matchSummaries params) ->
  exists s', lookup params (MatchSummary.matchId s) = Some s'.
Proof.
  unfold lookup. intros Hin.
  destruct (find _ _) as [ s' | ] eqn:Hfind; [ now exists s' | ].
  exfalso. apply (find_none _ _ Hfind) in Hin.
  now rewrite String.eqb_refl in Hin.
Qed.

Lemma joinOne_carries (matchId : string) (batch : list CharacterDetail)
    (d : MatchDetails.t) :
  In d (joinOne params matchId batch) ->
  MatchDetails.matchId d = matchId /\
  exists s, lookup params (MatchDetails.matchId d) = Some s /\ carries d s.
Proof.
  unfold joinOne. destruct (lookup params matchId) as [ s | ] eqn:Hs; simpl.
  - intros [ <- | [] ]. simpl.
    destruct (lookup_some _ Hs) as [_ Heq].
    split; [ exact Heq | ]. exists s. rewrite Heq. split; [ exact Hs | ].
    unfold carries. simpl. tauto.
  - intros [].
Qed.

Lemma joinOne_length (matchId : string) (batch : list CharacterDetail) :
  List.length (joinOne params matchId batch) <= 1.
Proof.
  unfold joinOne. destruct (lookup params matchId); simpl; lia.
Qed.

Lemma joinOne_ids (matchId : string) (batch : list CharacterDetail) :
  map MatchDetails.matchId (joinOne params matchId batch) =
  if has_summary params matchId then [matchId] else [].
Proof.
  rewrite lookup_has_summary. unfold joinOne.
  destruct (lookup params matchId) as [ s | ] eqn:Hs; simpl; [ | reflexivity ].
  now destruct (lookup_some _ Hs) as [_ ->].
Qed.

Lemma joinFrom_length (matchIds : list string) :
  forall n out,
    joinFrom fetchMatchData params n matchIds = Fulfilled out ->
    List.length out <= List.length matchIds.
Proof.
  induction matchIds as [ | matchId matchIds IH ]; simpl; intros n out H.
  - injection H as <-. simpl. lia.
  - destruct (fetchMatchData _ _) as [ batch | e ]; [ | discriminate ].
    destruct (joinFrom _ _ _ _) as [ more | e ] eqn:Hmore; [ | discriminate ].
    injection H as <-. rewrite length_app.
    pose proof (joinOne_length matchId batch). specialize (IH _ _ Hmore). lia.
Qed.

Lemma joinFrom_carries (matchIds : list string) :
  forall n out d,
    joinFrom fetchMatchData params n matchIds = Fulfilled out ->
    In d out ->
    In (MatchDetails.matchId d) matchIds /\
    exists s, lookup params (MatchDetails.matchId d) = Some s /\ carries d s.
Proof.
  induction matchIds as [ | matchId matchIds IH ]; simpl; intros n out d H Hin.
  - injection H as <-. destruct Hin.
  - destruct (fetchMatchData _ _) as [ batch | e ]; [ | discriminate ].
    destruct (joinFrom _ _ _ _) as [ more | e ] eqn:Hmore; [ | discriminate ].
    injection H as <-. apply in_app_or in Hin. destruct Hin as [ Hin | Hin ].
    + apply joinOne_carries in Hin. destruct Hin as [ Hid Hs ]. auto.
    + destruct (IH _ _ _ Hmore Hin) as [ Hid Hs ]. auto.
Qed.

Lemma joinFrom_ids (matchIds : list string) :
  forall n out,
    joinFrom fetchMatchData params n matchIds = Fulfilled out ->
    map MatchDetails.matchId out = filter (has_summary params) matchIds.
Proof.
  induction matchIds as [ | matchId matchIds IH ]; simpl; intros n out H.
  - now injection H as <-.
  - destruct (fetchMatchData _ _) as [ batch | e ]; [ | discriminate ].
    destruct (joinFrom _ _ _ _) as [ more | e ] eqn:Hmore; [ | discriminate ].
    injection H as <-. rewrite map_app, joinOne_ids, (IH _ _ Hmore).
    now destruct (has_summary params matchId).
Qed.

(** Every identifier taken from the summaries has a summary. *)
Lemma filter_has_summary_own :
  filter (has_summary params)
         (map MatchSummary.matchId (Params.matchSummaries params)) =
  map MatchSummary.matchId (Params.matchSummaries params).
Proof.
  apply forallb_filter_id. apply forallb_forall.
  intros matchId Hin. apply in_map_iff in Hin. destruct Hin as [ s [ <- Hs ] ].
  rewrite lookup_has_summary. now destruct (lookup_own s Hs) as [ s' -> ].
Qed.

(** A rejected call rejects the loop: the error is that of the first call
    that fails. *)
Lemma joinFrom_rejected (matchIds : list string) :
  forall n i matchId e,
    nth_error matchIds i = Some matchId ->
    fetchMatchData (n + i) (request params matchId) = Rejected e ->
    exists j matchId' e',
      j <= i /\
      nth_error matchIds j = Some matchId' /\
      fetchMatchData (n + j) (request params matchId') = Rejected e' /\
      joinFrom fetchMatchData params n matchIds = Rejected e'.
Proof.
  induction matchIds as [ | m matchIds IH ]; intros n i matchId e Hnth Hfail.
  - destruct i; discriminate.
  - simpl. destruct (fetchMatchData n (request params m)) as [ batch | e0 ] eqn:Hm.
    + destruct i as [ | i ].
      * simpl in Hnth. injection Hnth as ->.
        rewrite Nat.add_0_r in Hfail. congruence.
      * simpl in Hnth. rewrite <- Nat.add_succ_comm in Hfail.
        destruct (IH (S n) i matchId e Hnth Hfail)
          as [ j [ m' [ e' [ Hj [ Hn [ Hf Hr ] ] ] ] ] ].
        exists (S j), m', e'. rewrite <- Nat.add_succ_comm, Hr.
        repeat split; auto. lia.
    + exists 0, m, e0. rewrite Nat.add_0_r. repeat split; auto. lia.
Qed.

(** When every call of the run fulfils, so does the loop. *)
Lemma joinFrom_total (matchIds : list string) :
  forall n,
    (forall i matchId,
        nth_error matchIds i = Some matchId ->
        exists batch,
          fetchMatchData (n + i) (request params matchId) = Fulfilled batch) ->
    exists out, joinFrom fetchMatchData params n matchIds = Fulfilled out.
Proof.
  induction matchIds as [ | m matchIds IH ]; intros n Hall; simpl.
  - now exists [].
  - destruct (Hall 0 m eq_refl) as [ batch Hb ].
    rewrite Nat.add_0_r in Hb. rewrite Hb.
    destruct (IH (S n)) as [ more Hmore ].
    + intros i matchId Hnth. rewrite Nat.add_succ_comm. now apply (Hall (S i)).
    + rewrite Hmore. eauto.
Qed.

End JoinFacts.

(** * The claims about the aggregator *)

Lemma getMatchDetails_result
    (fetchMatchData : nat -> FetchParams.t -> Outcome (list CharacterDetail))
    (params : Params.t) (w : World) :
  snd (getMatchDetails fetchMatchData params w) =
  joinFrom fetchMatchData params (calls w)
    (map MatchSummary.matchId (Params.matchSummaries params)).
Proof.
  unfold getMatchDetails. rewrite forOf_result.
  now destruct (joinFrom _ _ _ _).
Qed.

Lemma find_first {A : Type} (p : A -> bool) (l : list A) (x : A) :
  find p l = Some x ->
  exists before after,
    l = (before ++ x :: after)%list /\ p x = true /\
    forall y, In y before -> p y = false.
Proof.
  induction l as [ | a l IH ]; simpl; [ discriminate | ].
  destruct (p a) eqn:Hpa.
  - intros H. injection H as <-. exists [], l. simpl. repeat split; tauto.
  - intros H. destruct (IH H) as [ before [ after [ -> [ Hx Hb ] ] ] ].
    exists (a :: before), after. repeat split; auto.
    intros y [ <- | Hy ]; auto.
Qed.

(** C1. The output of [getMatchDetails] is never longer than the list of
    summaries; the [matchId] of every output record is the [matchId] of an
    input summary; the summary fields of every output record are those of
    the first input summary with that [matchId] (no summary before it in
    the list has the identifier); and an identifier for which the lookup
    finds no summary leaves the output list as it was. *)
Theorem getMatchDetails_filter_join :
  forall (fetchMatchData : nat -> FetchParams.t -> Outcome (list CharacterDetail))
         (params : Params.t) (w w' : World) (out : list MatchDetails.t),
    getMatchDetails fetchMatchData params w = (w', Fulfilled out) ->
    List.length out <= List.length (Params.matchSummaries params) /\
    (forall d, In d out ->
       In (MatchDetails.matchId d)
          (map MatchSummary.matchId (Params.matchSummaries params))) /\
    (forall d, In d out ->
       exists before s after,
         Params.matchSummaries params = (before ++ s :: after)%list /\
         (forall s', In s' before ->
            MatchSummary.matchId s' <> MatchDetails.matchId d) /\
         carries d s) /\
    (forall matchId acc w1 w2 acc',
       find (fun summary => String.eqb (MatchSummary.matchId summary) matchId)
            (Params.matchSummaries params) = None ->
       loopBody fetchMatchData params matchId acc w1 = (w2, Fulfilled acc') ->
       acc' = acc).
Proof.
  intros fetchMatchData params w w' out Hrun.
  assert (Hjoin : joinFrom fetchMatchData params (calls w)
            (map MatchSummary.matchId (Params.matchSummaries params))
          = Fulfilled out).
  { rewrite <- getMatchDetails_result, Hrun. reflexivity. }
  split; [ | split; [ | split ] ].
  - apply joinFrom_length in Hjoin. now rewrite length_map in Hjoin.
  - intros d Hd. now destruct (joinFrom_carries _ _ _ _ _ Hjoin Hd).
  - intros d Hd.
    destruct (joinFrom_carries _ _ _ _ _ Hjoin Hd) as [ _ [ s [ Hs Hc ] ] ].
    unfold lookup in Hs. apply find_first in Hs.
    destruct Hs as [ before [ after [ Heq [ _ Hb ] ] ] ].
    exists before, s, after. split; [ exact Heq | split; [ | exact Hc ] ].
    intros s' Hs' Hsame. specialize (Hb s' Hs').
    rewrite Hsame, String.eqb_refl in Hb. discriminate.
  - intros matchId acc w1 w2 acc' Hnone Hbody.
    rewrite loopBody_eq in Hbody. unfold joinOne, lookup in Hbody.
    rewrite Hnone in Hbody.
    destruct (fetchMatchData _ _); [ | discriminate ].
    rewrite app_nil_r in Hbody. congruence.
Qed.

Lemma getMatchDetails_filter_join_witness :
  exists out,
    snd (getMatchDetails sampleFetch sampleParams initial) = Fulfilled out /\
    List.length out <= 3 /\
    (forall d, In d out ->
       In (MatchDetails.matchId d)
          (map MatchSummary.matchId (Params.matchSummaries sampleParams))).
Proof.
  eexists. split; [ reflexivity | ].
  split;
    [ exact (proj1 (getMatchDetails_filter_join sampleFetch sampleParams
                      initial eq_refl))
    | exact (proj1 (proj2 (getMatchDetails_filter_join sampleFetch sampleParams
                      initial eq_refl))) ].
Defined.

(** C2. When [getMatchDetails] fulfils, the identifiers of its output are,
    in order, the input identifiers that have a summary; as every input
    identifier has one, they are the input identifiers in input order. *)
Theorem getMatchDetails_preserves_order :
  forall (fetchMatchData : nat -> FetchParams.t -> Outcome (list CharacterDetail))
         (params : Params.t) (w w' : World) (out : list MatchDetails.t),
    getMatchDetails fetchMatchData params w = (w', Fulfilled out) ->
    map MatchDetails.matchId out =
      filter (has_summary params)
             (map MatchSummary.matchId (Params.matchSummaries params)) /\
    map MatchDetails.matchId out =
      map MatchSummary.matchId (Params.matchSummaries params).
Proof.
  intros fetchMatchData params w w' out Hrun.
  assert (Hjoin : joinFrom fetchMatchData params (calls w)
            (map MatchSummary.matchId (Params.matchSummaries params))
          = Fulfilled out).
  { rewrite <- getMatchDetails_result, Hrun. reflexivity. }
  apply joinFrom_ids in Hjoin. split; [ exact Hjoin | ].
  rewrite Hjoin. apply filter_has_summary_own.
Qed.

Lemma getMatchDetails_preserves_order_witness :
  exists out,
    snd (getMatchDetails sampleFetch sampleParams initial) = Fulfilled out /\
    map MatchDetails.matchId out = ["A"; "B"; "A"].
Proof.
  eexists. split; [ reflexivity | ].
  exact (proj2 (getMatchDetails_preserves_order sampleFetch sampleParams
                  initial eq_refl)).
Defined.

(** C3. If the call made for some identifier of the input list is rejected,
    [getMatchDetails] is rejected, with the error of the first call that
    failed; it is not fulfilled with any list, so no part of the joined
    records reaches the caller. *)
Theorem getMatchDetails_fetch_failure_aborts :
  forall (fetchMatchData : nat -> FetchParams.t -> Outcome (list CharacterDetail))
         (params : Params.t) (w : World) (i : nat) (matchId : string)
         (e : RemoteFetchError),
    nth_error (map MatchSummary.matchId (Params.matchSummaries params)) i
      = Some matchId ->
    fetchMatchData (calls w + i) (request params matchId) = Rejected e ->
    (exists j matchId' e',
       j <= i /\
       nth_error (map MatchSummary.matchId (Params.matchSummaries params)) j
         = Some matchId' /\
       fetchMatchData (calls w + j) (request params matchId') = Rejected e' /\
       snd (getMatchDetails fetchMatchData params w) = Rejected e') /\
    (forall partial,
       snd (getMatchDetails fetchMatchData params w) <> Fulfilled partial).
Proof.
  intros fetchMatchData params w i matchId e Hnth Hfail.
  destruct (joinFrom_rejected fetchMatchData params _ _ _ Hnth Hfail)
    as [ j [ matchId' [ e' [ Hj [ Hn [ Hf Hr ] ] ] ] ] ].
  rewrite <- getMatchDetails_result in Hr.
  split.
  - exists j, matchId', e'. auto.
  - intros partial Hp. rewrite Hr in Hp. discriminate.
Qed.

Lemma getMatchDetails_fetch_failure_aborts_witness :
  snd (getMatchDetails failingFetch sampleParams initial)
    = Rejected {| message := "Request failed with status code 503" |} /\
  forall partial,
    snd (getMatchDetails failingFetch sampleParams initial) <> Fulfilled partial.
Proof.
  split; [ reflexivity | ].
  exact (proj2 (getMatchDetails_fetch_failure_aborts failingFetch sampleParams
                  initial 1 eq_refl eq_refl)).
Defined.

(** C10. If every call of the run is fulfilled, [getMatchDetails] is
    fulfilled with exactly one record per input summary (summaries that
    share a [matchId] included), because the lookup of an identifier taken
    from the summaries always finds a summary. *)
Theorem getMatchDetails_one_record_per_summary :
  forall (fetchMatchData : nat -> FetchParams.t -> Outcome (list CharacterDetail))
         (params : Params.t) (w : World),
    (forall i matchId,
        nth_error (map MatchSummary.matchId (Params.matchSummaries params)) i
          = Some matchId ->
        exists batch,
          fetchMatchData (calls w + i) (request params matchId)
            = Fulfilled batch) ->
    (exists out,
       snd (getMatchDetails fetchMatchData params w) = Fulfilled out /\
       List.length out = List.length (Params.matchSummaries params)) /\
    (forall matchId,
       In matchId (map MatchSummary.matchId (Params.matchSummaries params)) ->
       find (fun summary => String.eqb (MatchSummary.matchId summary) matchId)
            (Params.matchSummaries params) <> None).
Proof.
  intros fetchMatchData params w Hall.
  split.
  - destruct (joinFrom_total fetchMatchData params _ _ Hall) as [ out Hout ].
    exists out. rewrite getMatchDetails_result. split; [ exact Hout | ].
    rewrite <- (length_map MatchDetails.matchId),
            <- (length_map MatchSummary.matchId (Params.matchSummaries params)).
    f_equal. rewrite (joinFrom_ids _ _ _ _ Hout).
    apply filter_has_summary_own.
  - intros matchId Hin. apply in_map_iff in Hin.
    destruct Hin as [ s [ <- Hs ] ].
    destruct (lookup_own params s Hs) as [ s' Hs' ].
    unfold lookup in Hs'. rewrite Hs'. discriminate.
Qed.

Lemma getMatchDetails_one_record_per_summary_witness :
  exists out,
    snd (getMatchDetails sampleFetch sampleParams initial) = Fulfilled out /\
    List.length out = 3.
Proof.
  apply (getMatchDetails_one_record_per_summary sampleFetch sampleParams initial).
  intros i matchId _. exists [sampleCharacter]. reflexivity.
Defined.

(** C9. In every run of [getMatchDetails], whatever the summaries and the
    answers of the fetcher, at every moment at most one call handed to the
    limiter has not settled yet: a second fetch is never in flight next to
    the first, so the ceiling of 32 holds but is never approached. *)
Theorem getMatchDetails_awaits_each_call :
  forall (fetchMatchData : nat -> FetchParams.t -> Outcome (list CharacterDetail))
         (params : Params.t) (moment : nat),
    in_flight
      (firstn moment (log (fst (getMatchDetails fetchMatchData params initial))))
    <= 1 /\
    1 < maxConcurrent.
Proof.
  intros fetchMatchData params moment.
  split; [ | unfold maxConcurrent; lia ].
  unfold getMatchDetails.
  destruct (forOf_log fetchMatchData params
              (map MatchSummary.matchId (Params.matchSummaries params))
              [] initial) as [ k [ _ Hlog ] ].
  rewrite Hlog. simpl. apply in_flight_sequential.
Qed.

(** The run on three matches: three records in the order "A", "B", "C",
    each with its one character normalised, and the calls made one after
    the other. *)
Example getMatchDetails_three_matches :
  exists w out,
    getMatchDetails sampleFetch threeMatches initial = (w, Fulfilled out) /\
    map MatchDetails.matchId out = ["A"; "B"; "C"] /\
    map MatchDetails.team_name out = ["Alpha"; "Beta"; "Gamma"] /\
    map (fun d => map personal_change (MatchDetails.character_details d)) out
      = [["+15 (200)"]; ["+15 (200)"]; ["+15 (200)"]] /\
    map (fun d => map teamnamerich (MatchDetails.character_details d)) out
      = [["Team Alpha"]; ["Team Alpha"]; ["Team Alpha"]] /\
    log w = [Submit 0; Settle 0; Submit 1; Settle 1; Submit 2; Settle 2].
Proof.
  eexists. eexists. split; [ vm_compute; reflexivity | ].
  repeat split.
Qed.

(** * More about the aggregator *)

Section MoreJoinFacts.

Variable fetchMatchData :
  nat -> FetchParams.t -> Outcome (list CharacterDetail).
Variable params : Params.t.

(** The world after the loop: the calls made are counted and logged one
    after the other. *)
Lemma forOf_world (matchIds : list string) :
  forall (acc : list MatchDetails.t) (w : World),
    fst (forOf fetchMatchData params matchIds acc w) =
    {| calls := calls w + callsMade fetchMatchData params (calls w) matchIds;
       log := (log w ++
               sequential (calls w)
                 (callsMade fetchMatchData params (calls w) matchIds))%list |}.
Proof.
  induction matchIds as [ | matchId matchIds IH ]; intros acc w; simpl.
  - rewrite Nat.add_0_r, app_nil_r. now destruct w.
  - unfold bind. rewrite loopBody_eq.
    destruct (fetchMatchData _ _) as [ batch | e ].
    + rewrite IH. simpl. rewrite <- app_assoc, Nat.add_succ_r. reflexivity.
    + simpl. now rewrite Nat.add_1_r.
Qed.

Lemma callsMade_fulfilled (matchIds : list string) :
  forall n out,
    joinFrom fetchMatchData params n matchIds = Fulfilled out ->
    callsMade fetchMatchData params n matchIds = List.length matchIds.
Proof.
  induction matchIds as [ | matchId matchIds IH ]; simpl; intros n out H.
  - reflexivity.
  - destruct (fetchMatchData _ _) as [ batch | e ]; [ | discriminate ].
    destruct (joinFrom _ _ _ _) as [ more | e ] eqn:Hmore; [ | discriminate ].
    now rewrite (IH _ _ Hmore).
Qed.

Lemma callsMade_rejected (matchIds : list string) :
  forall n e,
    joinFrom fetchMatchData params n matchIds = Rejected e ->
    exists j matchId,
      callsMade fetchMatchData params n matchIds = S j /\
      nth_error matchIds j = Some matchId /\
      fetchMatchData (n + j) (request params matchId) = Rejected e /\
      forall i matchId',
        i < j -> nth_error matchIds i = Some matchId' ->
        exists batch,
          fetchMatchData (n + i) (request params matchId') = Fulfilled batch.
Proof.
  induction matchIds as [ | m matchIds IH ]; simpl; intros n e H.
  - discriminate.
  - destruct (fetchMatchData n (request params m)) as [ batch | e0 ] eqn:Hm.
    + destruct (joinFrom _ _ _ _) as [ more | e1 ] eqn:Hmore; [ discriminate | ].
      injection H as ->.
      destruct (IH _ _ Hmore) as [ j [ matchId [ Hc [ Hn [ Hf Hbefore ] ] ] ] ].
      exists (S j), matchId. rewrite Hc, <- Nat.add_succ_comm.
      repeat split; auto.
      intros [ | i ] matchId' Hi Hnth.
      * simpl in Hnth. injection Hnth as <-. rewrite Nat.add_0_r. eauto.
      * rewrite <- Nat.add_succ_comm. apply (Hbefore i); [ lia | exact Hnth ].
    + injection H as ->. exists 0, m. rewrite Nat.add_0_r.
      repeat split; auto. intros i matchId' Hi. lia.
Qed.

(** Position by position: when every identifier has a summary, the record
    at position [i] is the one joined for identifier [i] with the batch of
    call [i]. *)
Lemma joinFrom_nth (matchIds : list string) :
  forall n out i matchId,
    (forall m, In m matchIds -> has_summary params m = true) ->
    joinFrom fetchMatchData params n matchIds = Fulfilled out ->
    nth_error matchIds i = Some matchId ->
    exists batch,
      fetchMatchData (n + i) (request params matchId) = Fulfilled batch /\
      joinOne params matchId batch = firstn 1 (skipn i out) /\
      List.length (joinOne params matchId batch) = 1.
Proof.
  induction matchIds as [ | m matchIds IH ]; intros n out i matchId Hall H Hnth.
  - destruct i; discriminate.
  - simpl in H.
    destruct (fetchMatchData n (request params m)) as [ batch | e ] eqn:Hm;
      [ | discriminate ].
    destruct (joinFrom _ _ _ _) as [ more | e ] eqn:Hmore; [ | discriminate ].
    injection H as <-.
    assert (Hone : exists d, joinOne params m batch = [d]).
    { unfold joinOne. pose proof (Hall m (or_introl eq_refl)) as Hs.
      rewrite lookup_has_summary in Hs.
      destruct (lookup params m); [ eauto | discriminate ]. }
    destruct Hone as [ d Hd ].
    destruct i as [ | i ].
    + simpl in Hnth. injection Hnth as <-. rewrite Nat.add_0_r.
      exists batch. rewrite Hd. auto.
    + simpl in Hnth.
      destruct (IH (S n) more i matchId) as [ batch' [ Hf [ Hj Hl ] ] ]; auto.
      { intros m' Hin. apply Hall. now right. }
      exists batch'. rewrite <- Nat.add_succ_comm, Hd. auto.
Qed.

Lemma lookup_nodup (s : MatchSummary.t) :
  NoDup (map MatchSummary.matchId (Params.matchSummaries params)) ->
  In s (Params.matchSummaries params) ->
  lookup params (MatchSummary.matchId s) = Some s.
Proof.
  unfold lookup. induction (Params.matchSummaries params) as [ | a l IH ];
    simpl; intros Hnd Hin; [ destruct Hin | ].
  inversion Hnd as [ | x xs Hnotin Hnd' ]; subst.
  destruct Hin as [ -> | Hin ].
  - now rewrite String.eqb_refl.
  - destruct (String.eqb (MatchSummary.matchId a) (MatchSummary.matchId s))
      eqn:Heq.
    + apply String.eqb_eq in Heq. exfalso. apply Hnotin. rewrite Heq.
      now apply in_map.
    + now apply IH.
Qed.

End MoreJoinFacts.

Lemma own_ids_have_summary (params : Params.t) (m : string) :
  In m (map MatchSummary.matchId (Params.matchSummaries params)) ->
  has_summary params m = true.
Proof.
  intros Hin. apply in_map_iff in Hin. destruct Hin as [ s [ <- Hs ] ].
  rewrite lookup_has_summary. now destruct (lookup_own params s Hs) as [ s' -> ].
Qed.

Lemma firstn_1_skipn {A : Type} (l : list A) (i : nat) (d : A) :
  [d] = firstn 1 (skipn i l) -> nth_error l i = Some d.
Proof.
  revert l. induction i as [ | i IH ]; intros [ | a l ]; simpl; try discriminate.
  - intros H. now injection H as ->.
  - apply IH.
Qed.

Lemma getMatchDetails_join
    (fetchMatchData : nat -> FetchParams.t -> Outcome (list CharacterDetail))
    (params : Params.t) (w w' : World) (out : list MatchDetails.t) :
  getMatchDetails fetchMatchData params w = (w', Fulfilled out) ->
  joinFrom fetchMatchData params (calls w)
    (map MatchSummary.matchId (Params.matchSummaries params)) = Fulfilled out.
Proof.
  intros Hrun. rewrite <- getMatchDetails_result, Hrun. reflexivity.
Qed.

Lemma getMatchDetails_world
    (fetchMatchData : nat -> FetchParams.t -> Outcome (list CharacterDetail))
    (params : Params.t) (w : World) :
  fst (getMatchDetails fetchMatchData params w) =
  {| calls := calls w +
              callsMade fetchMatchData params (calls w)
                (map MatchSummary.matchId (Params.matchSummaries params));
     log := (log w ++
             sequential (calls w)
               (callsMade fetchMatchData params (calls w)
                  (map MatchSummary.matchId (Params.matchSummaries params))))%list |}.
Proof. unfold getMatchDetails. apply forOf_world. Qed.

(** The record joined for the summary at position [i]. *)
Lemma joinFrom_own_nth
    (fetchMatchData : nat -> FetchParams.t -> Outcome (list CharacterDetail))
    (params : Params.t) (n : nat) (out : list MatchDetails.t)
    (i : nat) (s : MatchSummary.t) :
  joinFrom fetchMatchData params n
    (map MatchSummary.matchId (Params.matchSummaries params)) = Fulfilled out ->
  nth_error (Params.matchSummaries params) i = Some s ->
  exists batch s',
    fetchMatchData (n + i) (request params (MatchSummary.matchId s))
      = Fulfilled batch /\
    lookup params (MatchSummary.matchId s) = Some s' /\
    nth_error out i
      = Some (mkMatchDetails s' (map formatCharacterDetail batch)).
Proof.
  intros Hjoin Hs.
  assert (Hid : nth_error (map MatchSummary.matchId (Params.matchSummaries params)) i
                = Some (MatchSummary.matchId s)).
  { now rewrite nth_error_map, Hs. }
  destruct (joinFrom_nth fetchMatchData params _ _ _
              (own_ids_have_summary params) Hjoin Hid)
    as [ batch [ Hf [ Hj _ ] ] ].
  unfold joinOne in Hj.
  destruct (lookup params (MatchSummary.matchId s)) as [ s' | ] eqn:Hlook.
  - exists batch, s'. split; [ exact Hf | ]. split; [ reflexivity | ].
    now apply firstn_1_skipn.
  - exfalso. apply nth_error_In in Hs.
    destruct (lookup_own params s Hs) as [ s' Hs' ]. congruence.
Qed.

(** X2. When [getMatchDetails] fulfils, the record at position [i] of the
    output belongs to the summary at position [i] of the input: it has its
    [matchId], and its [character_details] are the batch that call [i]
    returned for that identifier, normalised character by character (none
    added, none dropped, in the order of the payload). *)
Theorem getMatchDetails_batches :
  forall (fetchMatchData : nat -> FetchParams.t -> Outcome (list CharacterDetail))
         (params : Params.t) (w w' : World) (out : list MatchDetails.t)
         (i : nat) (s : MatchSummary.t),
    getMatchDetails fetchMatchData params w = (w', Fulfilled out) ->
    nth_error (Params.matchSummaries params) i = Some s ->
    exists batch d,
      fetchMatchData (calls w + i) (request params (MatchSummary.matchId s))
        = Fulfilled batch /\
      nth_error out i = Some d /\
      MatchDetails.matchId d = MatchSummary.matchId s /\
      MatchDetails.character_details d = map formatCharacterDetail batch.
Proof.
  intros fetchMatchData params w w' out i s Hrun Hs.
  destruct (joinFrom_own_nth _ _ _ _ (getMatchDetails_join _ _ _ Hrun) Hs)
    as [ batch [ s' [ Hf [ Hlook Hd ] ] ] ].
  exists batch, (mkMatchDetails s' (map formatCharacterDetail batch)).
  split; [ exact Hf | ]. split; [ exact Hd | ]. simpl.
  split; [ | reflexivity ]. now destruct (lookup_some _ _ Hlook).
Qed.

Lemma getMatchDetails_batches_witness :
  exists batch d,
    sampleFetch 1 (request sampleParams "B") = Fulfilled batch /\
    nth_error
      (match snd (getMatchDetails sampleFetch sampleParams initial) with
       | Fulfilled out => out
       | Rejected _ => []
       end) 1 = Some d /\
    MatchDetails.matchId d = "B" /\
    MatchDetails.character_details d = map formatCharacterDetail batch.
Proof.
  exact (@getMatchDetails_batches sampleFetch sampleParams initial _ _ 1
           (sampleSummary "B" "Beta") eq_refl eq_refl).
Defined.

(** X3. When the identifiers of the summaries are pairwise distinct and
    [getMatchDetails] fulfils, the record at position [i] is exactly the
    summary at position [i] with the normalised batch of call [i]. *)
Theorem getMatchDetails_distinct_ids :
  forall (fetchMatchData : nat -> FetchParams.t -> Outcome (list CharacterDetail))
         (params : Params.t) (w w' : World) (out : list MatchDetails.t)
         (i : nat) (s : MatchSummary.t),
    NoDup (map MatchSummary.matchId (Params.matchSummaries params)) ->
    getMatchDetails fetchMatchData params w = (w', Fulfilled out) ->
    nth_error (Params.matchSummaries params) i = Some s ->
    exists batch,
      fetchMatchData (calls w + i) (request params (MatchSummary.matchId s))
        = Fulfilled batch /\
      nth_error out i
        = Some (mkMatchDetails s (map formatCharacterDetail batch)).
Proof.
  intros fetchMatchData params w w' out i s Hnd Hrun Hs.
  destruct (joinFrom_own_nth _ _ _ _ (getMatchDetails_join _ _ _ Hrun) Hs)
    as [ batch [ s' [ Hf [ Hlook Hd ] ] ] ].
  exists batch. split; [ exact Hf | ].
  rewrite (lookup_nodup params s Hnd (nth_error_In _ _ Hs)) in Hlook.
  now injection Hlook as <-.
Qed.

Lemma getMatchDetails_distinct_ids_witness :
  exists batch,
    sampleFetch 2 (request threeMatches "C") = Fulfilled batch /\
    nth_error
      (match snd (getMatchDetails sampleFetch threeMatches initial) with
       | Fulfilled out => out
       | Rejected _ => []
       end) 2
    = Some (mkMatchDetails (sampleSummary "C" "Gamma")
              (map formatCharacterDetail batch)).
Proof.
  refine (@getMatchDetails_distinct_ids sampleFetch threeMatches initial _ _ 2
            (sampleSummary "C" "Gamma") _ eq_refl eq_refl).
  repeat constructor; simpl; intuition discriminate.
Defined.

(** X4. [getMatchDetails] hands the limiter one call per summary,
    duplicates of an identifier included, when it fulfils; when it is
    rejected, the call that failed was the last one made: every call
    before it was fulfilled and no identifier after it was fetched.  Either
    way the calls were submitted and settled one after the other. *)
Theorem getMatchDetails_calls :
  forall (fetchMatchData : nat -> FetchParams.t -> Outcome (list CharacterDetail))
         (params : Params.t) (w : World),
    (forall out,
       snd (getMatchDetails fetchMatchData params w) = Fulfilled out ->
       calls (fst (getMatchDetails fetchMatchData params w))
         = calls w + List.length (Params.matchSummaries params)) /\
    (forall e,
       snd (getMatchDetails fetchMatchData params w) = Rejected e ->
       exists j s,
         nth_error (Params.matchSummaries params) j = Some s /\
         fetchMatchData (calls w + j) (request params (MatchSummary.matchId s))
           = Rejected e /\
         calls (fst (getMatchDetails fetchMatchData params w))
           = calls w + S j /\
         forall i s',
           i < j -> nth_error (Params.matchSummaries params) i = Some s' ->
           exists batch,
             fetchMatchData (calls w + i)
               (request params (MatchSummary.matchId s')) = Fulfilled batch) /\
    log (fst (getMatchDetails fetchMatchData params w))
      = (log w ++
         sequential (calls w)
           (calls (fst (getMatchDetails fetchMatchData params w)) - calls w))%list.
Proof.
  intros fetchMatchData params w.
  pose proof (getMatchDetails_result fetchMatchData params w) as Hres.
  rewrite getMatchDetails_world. simpl.
  split; [ | split ].
  - intros out Hout. rewrite Hres in Hout.
    rewrite (callsMade_fulfilled _ _ _ _ Hout). now rewrite length_map.
  - intros e He. rewrite Hres in He.
    destruct (callsMade_rejected _ _ _ _ He)
      as [ j [ matchId [ Hc [ Hn [ Hf Hbefore ] ] ] ] ].
    rewrite nth_error_map in Hn.
    destruct (nth_error (Params.matchSummaries params) j) as [ s | ] eqn:Hs;
      [ | discriminate ].
    simpl in Hn. injection Hn as <-.
    exists j, s. rewrite Hc. repeat split; auto.
    intros i s' Hi Hs'. apply (Hbefore i); [ exact Hi | ].
    now rewrite nth_error_map, Hs'.
  - now rewrite Nat.add_comm, Nat.add_sub.
Qed.

Lemma getMatchDetails_calls_witness :
  calls (fst (getMatchDetails sampleFetch sampleParams initial)) = 3 /\
  exists j s,
    nth_error (Params.matchSummaries sampleParams) j = Some s /\
    failingFetch j (request sampleParams (MatchSummary.matchId s))
      = Rejected {| message := "Request failed with status code 503" |} /\
    calls (fst (getMatchDetails failingFetch sampleParams initial)) = S j.
Proof.
  split.
  - exact (proj1 (getMatchDetails_calls sampleFetch sampleParams initial)
             _ eq_refl).
  - destruct (proj1 (proj2 (getMatchDetails_calls failingFetch sampleParams
                              initial)) _ eq_refl)
      as [ j [ s [ Hs [ Hf [ Hc _ ] ] ] ] ].
    exists j, s. auto.
Defined.

(** * The whole crawl *)

Lemma extractRow_matchId (element : Row) :
  MatchSummary.matchId (extractRow element) = JS.trim (td1 element).
Proof. unfold extractRow. now destruct (splitTeamBracket _). Qed.

(** X5. [fetchAllMatchDetails]: when the request for the history document
    is rejected, the crawl is rejected with that error and no detail
    request is made.  When it returns a document and the detail request of
    every row is fulfilled, the crawl is fulfilled with one record per row
    of the history table, in document order; the record of a row has the
    trimmed text of the first cell as [matchId], and as
    [character_details] the normalised payload of the request posted, to
    the address of the history, with the body "matchinfo=" followed by
    that identifier. *)
Theorem fetchAllMatchDetails_end_to_end :
  forall (axios_get : string -> Outcome string)
         (axios_post : nat -> Request -> Outcome (list CharacterDetail))
         (select : string -> list Row)
         (character realm : string) (w : World),
    (forall e,
       axios_get (matchHistoryUrl character realm) = Rejected e ->
       fetchAllMatchDetails axios_get axios_post select character realm w
         = (w, Rejected e)) /\
    (forall html,
       axios_get (matchHistoryUrl character realm) = Fulfilled html ->
       (forall i element,
          nth_error (select html) i = Some element ->
          exists batch,
            axios_post (calls w + i)
              (matchDataRequest
                 {| FetchParams.matchId := JS.trim (td1 element);
                    FetchParams.character := character;
                    FetchParams.realm := realm |}) = Fulfilled batch) ->
       exists w' out,
         fetchAllMatchDetails axios_get axios_post select character realm w
           = (w', Fulfilled out) /\
         List.length out = List.length (select html) /\
         calls w' = calls w + List.length (select html) /\
         forall i element,
           nth_error (select html) i = Some element ->
           exists batch d,
             axios_post (calls w + i)
               {| url := matchHistoryUrl character realm;
                  data := "matchinfo=" ++ JS.trim (td1 element);
                  headers := headers (matchDataRequest
                    {| FetchParams.matchId := JS.trim (td1 element);
                       FetchParams.character := character;
                       FetchParams.realm := realm |}) |} = Fulfilled batch /\
             nth_error out i = Some d /\
             MatchDetails.matchId d = JS.trim (td1 element) /\
             MatchDetails.character_details d
               = map formatCharacterDetail batch).
Proof.
  intros axios_get axios_post select character realm w. split.
  - intros e He. unfold fetchAllMatchDetails, getMatchSummaries, bind,
      fetchMatchHistoryHTML. now rewrite He.
  - intros html Hhtml Hall.
    set (params := {| Params.character := character;
                      Params.realm := realm;
                      Params.matchSummaries :=
                        extractMatchSummaries (select html) |}).
    assert (Hrun : fetchAllMatchDetails axios_get axios_post select
                     character realm w
                   = getMatchDetails (fetchMatchData axios_post) params w).
    { unfold fetchAllMatchDetails, getMatchSummaries, bind,
        fetchMatchHistoryHTML, ret. rewrite Hhtml. fold params.
      now destruct (getMatchDetails (fetchMatchData axios_post) params w)
        as [ w' [ out | e ] ]. }
    assert (Hids : forall i matchId,
               nth_error (map MatchSummary.matchId (Params.matchSummaries params)) i
                 = Some matchId ->
               exists batch,
                 fetchMatchData axios_post (calls w + i) (request params matchId)
                   = Fulfilled batch).
    { intros i matchId Hnth. simpl in Hnth. unfold extractMatchSummaries in Hnth.
      rewrite !nth_error_map in Hnth.
      destruct (nth_error (select html) i) as [ element | ] eqn:Hel;
        [ | discriminate ].
      simpl in Hnth. injection Hnth as <-. rewrite extractRow_matchId.
      exact (Hall i element Hel). }
    destruct (joinFrom_total (fetchMatchData axios_post) params _ _ Hids)
      as [ out Hout ].
    rewrite <- getMatchDetails_result in Hout.
    destruct (getMatchDetails (fetchMatchData axios_post) params w)
      as [ w' r ] eqn:Hget.
    simpl in Hout. subst r.
    exists w', out. split; [ exact Hrun | ].
    assert (Hjoin := getMatchDetails_join _ _ _ Hget).
    assert (Hlen : List.length out = List.length (select html)).
    { rewrite <- (length_map MatchDetails.matchId).
      rewrite (joinFrom_ids _ _ _ _ Hjoin), filter_has_summary_own.
      simpl. unfold extractMatchSummaries. now rewrite !length_map. }
    split; [ exact Hlen | ]. split.
    + pose proof (getMatchDetails_world (fetchMatchData axios_post) params w)
        as Hw.
      rewrite Hget in Hw. cbn [fst] in Hw. rewrite Hw. cbn [calls].
      rewrite (callsMade_fulfilled _ _ _ _ Hjoin).
      simpl. unfold extractMatchSummaries. now rewrite !length_map.
    + intros i element Hel.
      assert (Hs : nth_error (Params.matchSummaries params) i
                   = Some (extractRow element)).
      { simpl. unfold extractMatchSummaries. now rewrite nth_error_map, Hel. }
      destruct (joinFrom_own_nth _ _ _ _ Hjoin Hs)
        as [ batch [ s' [ Hf [ Hlook Hd ] ] ] ].
      rewrite extractRow_matchId in Hf, Hlook.
      exists batch, (mkMatchDetails s' (map formatCharacterDetail batch)).
      split; [ exact Hf | ]. split; [ exact Hd | ]. simpl.
      split; [ | reflexivity ]. now destruct (lookup_some _ _ Hlook).
Qed.

Lemma fetchAllMatchDetails_end_to_end_witness :
  fetchAllMatchDetails failingGet samplePost sampleSelect "Ziggy" "Icecrown"
    initial
  = (initial, Rejected {| message := "Request failed with status code 404" |}) /\
  exists w' out,
    fetchAllMatchDetails sampleGet samplePost sampleSelect "Ziggy" "Icecrown"
      initial = (w', Fulfilled out) /\
    List.length out = 2 /\ calls w' = 2.
Proof.
  split.
  - exact (proj1 (fetchAllMatchDetails_end_to_end failingGet samplePost
                    sampleSelect "Ziggy" "Icecrown" initial) _ eq_refl).
  - destruct (proj2 (fetchAllMatchDetails_end_to_end sampleGet samplePost
                       sampleSelect "Ziggy" "Icecrown" initial)
                "<html>...</html>" eq_refl)
      as [ w' [ out [ Hrun [ Hlen [ Hcalls _ ] ] ] ] ].
    + intros i element _. now exists [sampleCharacter].
    + exists w', out. auto.
Defined.

(** * More about the normaliser *)

Lemma strips_length (s out : string) :
  strips s out -> String.length out <= String.length s.
Proof.
  induction 1 as [ | s s' out Htag _ IH | c s out _ _ IH ]; simpl.
  - lia.
  - apply tag_at_shorter in Htag. lia.
  - lia.
Qed.

Lemma tag_free_tail (c : ascii) (s : string) :
  tag_free (String c s) -> tag_free s.
Proof.
  intros H before t t' Hs. apply (H (String c before) t t'). now rewrite Hs.
Qed.

Lemma stripTags_tag_free (s : string) : tag_free s -> stripTags s = s.
Proof.
  induction s as [ | c s IH ]; intros Hfree; [ reflexivity | ].
  rewrite stripTags_keep.
  - f_equal. apply IH. now apply tag_free_tail in Hfree.
  - intros s'. now apply (Hfree "" (String c s) s').
Qed.

Lemma stripTags_result_tag_free (s : string) : tag_free (stripTags s).
Proof. exact (strips_no_tag (stripTags_strips s)). Qed.

(** X6. Removing the tags a second time changes nothing; a text is left
    as it is exactly when no tag starts anywhere in it; and the result is
    never longer than the text. *)
Theorem stripTags_fixed_point :
  forall s : string,
    stripTags (stripTags s) = stripTags s /\
    (stripTags s = s <-> tag_free s) /\
    String.length (stripTags s) <= String.length s.
Proof.
  intros s. split; [ | split ].
  - apply stripTags_tag_free, stripTags_result_tag_free.
  - split.
    + intros Heq. rewrite <- Heq. apply stripTags_result_tag_free.
    + apply stripTags_tag_free.
  - apply strips_length, stripTags_strips.
Qed.

Lemma no_tag_without_open (c : ascii) (s s' : string) :
  JS.not_char "<" c = true -> ~ tag_at (String c s) s'.
Proof.
  intros Hc [ body [ Heq _ ] ]. simpl in Heq. injection Heq as -> _.
  discriminate.
Qed.

(** X7. Text that holds no "<", followed by a tag, followed by anything:
    the text is kept as it is, the tag is dropped, and the removal goes on
    with what follows the tag. *)
Theorem stripTags_text_then_tag :
  forall text body rest : string,
    JS.forallb (JS.not_char "<") text = true ->
    run_of (JS.not_char ">") body ->
    stripTags (text ++ "<" ++ body ++ ">" ++ rest) = text ++ stripTags rest.
Proof.
  intros text body rest Htext Hbody.
  induction text as [ | c text IH ].
  - simpl append. apply stripTags_tag. now exists body.
  - simpl in Htext. apply andb_prop in Htext. destruct Htext as [ Hc Htext ].
    simpl append. rewrite stripTags_keep.
    + f_equal. now apply IH.
    + intros s'. now apply no_tag_without_open.
Qed.

Lemma stripTags_text_then_tag_witness :
  stripTags ("Team " ++ "<" ++ "b class='x'" ++ ">" ++ "Alpha</b>")
  = "Team " ++ stripTags "Alpha</b>".
Proof.
  apply stripTags_text_then_tag; [ reflexivity | now split ].
Defined.

(** ** Change fields that hold no markup *)

Lemma no_open_append (a b : string) :
  JS.forallb (JS.not_char "<") (a ++ b) = true ->
  JS.forallb (JS.not_char "<") b = true.
Proof.
  rewrite forallb_append. intros H. now apply andb_prop in H.
Qed.

Lemma deltaOf_needs_markup (raw : string) :
  JS.forallb (JS.not_char "<") raw = true -> deltaOf raw = None.
Proof.
  intros Hraw. destruct (deltaOf raw) as [ delta | ] eqn:Hd; [ | reflexivity ].
  exfalso.
  assert (Hsome : deltaOf raw <> None) by (rewrite Hd; discriminate).
  apply deltaOf_has_delta in Hsome.
  destruct Hsome as [ before [ t [ after [ -> _ ] ] ] ].
  apply no_open_append, no_open_append in Hraw. discriminate.
Qed.

Lemma formatChange_plain (raw : string) :
  JS.forallb (JS.not_char "<") raw = true -> formatChange raw = raw.
Proof.
  intros Hraw. unfold formatChange. now rewrite (deltaOf_needs_markup _ Hraw).
Qed.

Lemma markup_free_append (a b : string) :
  markup_free (a ++ b) = markup_free a && markup_free b.
Proof. apply forallb_append. Qed.

Lemma digits_markup_free (ds : string) :
  JS.forallb JS.is_digit ds = true -> markup_free ds = true.
Proof.
  induction ds as [ | c ds IH ]; [ reflexivity | ].
  intros H. simpl in H. apply andb_prop in H. destruct H as [ Hc H ].
  change (markup_free (String c ds))
    with (negb (JS.is_char "<" c || JS.is_char ">" c) && markup_free ds).
  rewrite (IH H), andb_true_r. unfold JS.is_char.
  destruct (Ascii.eqb "<" c) eqn:E1;
    [ apply Ascii.eqb_eq in E1; subst c; discriminate | ].
  destruct (Ascii.eqb ">" c) eqn:E2;
    [ apply Ascii.eqb_eq in E2; subst c; discriminate | ].
  reflexivity.
Qed.

Lemma delta_token_markup_free (t : string) :
  delta_token t -> markup_free t = true.
Proof.
  intros [ sg [ ds [ -> [ Hsg [ _ Hds ] ] ] ] ].
  change (String sg ds) with (String sg "" ++ ds).
  rewrite markup_free_append, (digits_markup_free _ Hds), andb_true_r.
  unfold is_sign, JS.is_char in Hsg. apply orb_prop in Hsg.
  destruct Hsg as [ Hsg | Hsg ]; apply Ascii.eqb_eq in Hsg; subst sg;
    reflexivity.
Qed.

Lemma overall_token_markup_free (t : string) :
  overall_token t -> markup_free t = true.
Proof.
  intros [ ds [ [ -> | -> ] [ _ Hds ] ] ].
  - now apply digits_markup_free.
  - rewrite markup_free_append, (digits_markup_free _ Hds). reflexivity.
Qed.

Lemma markup_free_no_open (s : string) :
  markup_free s = true -> JS.forallb (JS.not_char "<") s = true.
Proof.
  induction s as [ | c s IH ]; [ reflexivity | ].
  change (markup_free (String c s))
    with (negb (JS.is_char "<" c || JS.is_char ">" c) && markup_free s).
  intros H. apply andb_prop in H. destruct H as [ Hc H ].
  simpl. rewrite (IH H), andb_true_r. unfold JS.not_char, JS.is_char in *.
  now destruct (Ascii.eqb "<" c).
Qed.

(** What [formatChange] writes when both values are extracted holds no
    markup. *)
Lemma formatChange_markup_free (raw : string) :
  deltaOf raw <> None -> overallOf raw <> None ->
  markup_free (formatChange raw) = true.
Proof.
  unfold formatChange. intros Hd Ho.
  destruct (deltaOf raw) as [ delta | ] eqn:Ed; [ | congruence ].
  destruct (overallOf raw) as [ overall | ] eqn:Eo; [ | congruence ].
  rewrite !markup_free_append.
  rewrite (delta_token_markup_free (deltaOf_token _ Ed)).
  rewrite (overall_token_markup_free (overallOf_token _ Eo)).
  reflexivity.
Qed.

Lemma formatChange_idempotent (raw : string) :
  formatChange (formatChange raw) = formatChange raw.
Proof.
  destruct (deltaOf raw) as [ delta | ] eqn:Ed.
  - destruct (overallOf raw) as [ overall | ] eqn:Eo.
    + apply formatChange_plain, markup_free_no_open, formatChange_markup_free;
        congruence.
    + assert (H : formatChange raw = raw)
        by (unfold formatChange; now rewrite Ed, Eo).
      now rewrite !H.
  - assert (H : formatChange raw = raw)
      by (unfold formatChange; now rewrite Ed).
    now rewrite !H.
Qed.

(** X8. A change field that holds no "<" is left as it is by the
    normaliser: plain values, and values that were normalised before, are
    not touched. *)
Theorem formatCharacterDetail_plain_change :
  forall cd : CharacterDetail,
    (forall raw,
       matchmaking_change cd = Some raw ->
       JS.forallb (JS.not_char "<") raw = true ->
       matchmaking_change (formatCharacterDetail cd) = Some raw) /\
    (JS.forallb (JS.not_char "<") (personal_change cd) = true ->
     personal_change (formatCharacterDetail cd) = personal_change cd).
Proof.
  intros cd. split.
  - intros raw Hraw Hplain. rewrite format_matchmaking_change, Hraw.
    rewrite (formatChange_plain _ Hplain). now destruct (JS.truthy raw).
  - intros Hplain. rewrite format_personal_change.
    rewrite (formatChange_plain _ Hplain).
    now destruct (JS.truthy (personal_change cd)).
Qed.

(** X9. Whenever the normaliser rewrites a change field, that is, when
    both the delta and the overall value are extracted from a non-empty
    raw value, the new value holds neither "<" nor ">". *)
Theorem formatCharacterDetail_change_markup_free :
  forall cd : CharacterDetail,
    (forall raw v,
       matchmaking_change cd = Some raw -> raw <> "" ->
       deltaOf raw <> None -> overallOf raw <> None ->
       matchmaking_change (formatCharacterDetail cd) = Some v ->
       markup_free v = true) /\
    (personal_change cd <> "" ->
     deltaOf (personal_change cd) <> None ->
     overallOf (personal_change cd) <> None ->
     markup_free (personal_change (formatCharacterDetail cd)) = true).
Proof.
  intros cd. split.
  - intros raw v Hraw Hne Hd Ho. rewrite format_matchmaking_change, Hraw.
    rewrite (truthy_nonempty Hne). intros H. injection H as <-.
    now apply formatChange_markup_free.
  - intros Hne Hd Ho. rewrite format_personal_change.
    rewrite (truthy_nonempty Hne). now apply formatChange_markup_free.
Qed.

Lemma CharacterDetail_ext (a b : CharacterDetail) :
  realm a = realm b -> charname a = charname b -> class a = class b ->
  race a = race b -> gender a = gender b -> teamname a = teamname b ->
  teamnamerich a = teamnamerich b -> damageDone a = damageDone b ->
  deaths a = deaths b -> healingDone a = healingDone b ->
  killingBlows a = killingBlows b ->
  matchmaking_change a = matchmaking_change b ->
  personal_change a = personal_change b -> a = b.
Proof.
  destruct a, b. simpl. intros. subst. reflexivity.
Qed.

(** X10. Normalising a character that was normalised before changes
    nothing. *)
Theorem formatCharacterDetail_idempotent :
  forall cd : CharacterDetail,
    formatCharacterDetail (formatCharacterDetail cd) = formatCharacterDetail cd.
Proof.
  intros cd.
  pose proof (format_frame (formatCharacterDetail cd)) as Hframe.
  simpl in Hframe.
  apply CharacterDetail_ext; try tauto.
  - rewrite !format_teamnamerich.
    apply stripTags_tag_free, stripTags_result_tag_free.
  - rewrite (format_matchmaking_change (formatCharacterDetail cd)).
    rewrite format_matchmaking_change.
    destruct (matchmaking_change cd) as [ raw | ]; [ | reflexivity ].
    f_equal. destruct (JS.truthy raw) eqn:Hraw.
    + rewrite formatChange_idempotent.
      destruct (JS.truthy (formatChange raw)); reflexivity.
    + now rewrite Hraw.
  - rewrite (format_personal_change (formatCharacterDetail cd)).
    rewrite format_personal_change.
    destruct (JS.truthy (personal_change cd)) eqn:Hraw.
    + rewrite formatChange_idempotent.
      destruct (JS.truthy (formatChange (personal_change cd))); reflexivity.
    + now rewrite Hraw.
Qed.

Lemma formatCharacterDetail_plain_change_witness :
  personal_change
    (formatCharacterDetail (set_personal_change "+15 (200)" sampleCharacter))
  = "+15 (200)".
Proof.
  exact (proj2 (formatCharacterDetail_plain_change
                  (set_personal_change "+15 (200)" sampleCharacter)) eq_refl).
Defined.

Lemma formatCharacterDetail_change_markup_free_witness :
  markup_free (personal_change (formatCharacterDetail sampleCharacter)) = true.
Proof.
  apply (proj2 (formatCharacterDetail_change_markup_free sampleCharacter));
    discriminate.
Defined.

(** * More about the extractor *)

Lemma span_split (p : ascii -> bool) (s : string) :
  s = fst (JS.span p s) ++ snd (JS.span p s) /\
  JS.forallb p (fst (JS.span p s)) = true.
Proof.
  induction s as [ | c s IH ]; simpl; [ auto | ].
  destruct (p c) eqn:Hc; [ | auto ].
  destruct (JS.span p s) as [ run rest ]. simpl in *.
  destruct IH as [ IH1 IH2 ]. rewrite Hc, IH2. split; [ now f_equal | auto ].
Qed.

Lemma trimStart_no_leading (s : string) : no_leading_space (JS.trimStart s).
Proof.
  unfold JS.trimStart.
  induction s as [ | c s IH ]; simpl; [ exact I | ].
  destruct (JS.is_space c) eqn:Hc; [ | exact Hc ].
  now destruct (JS.span JS.is_space s).
Qed.

Lemma trimStart_id (s : string) : no_leading_space s -> JS.trimStart s = s.
Proof.
  unfold JS.trimStart. destruct s as [ | c s ]; simpl; [ reflexivity | ].
  now intros ->.
Qed.

Lemma rev_append (a b : string) : JS.rev (a ++ b) = JS.rev b ++ JS.rev a.
Proof.
  induction a as [ | c a IH ]; simpl.
  - induction (JS.rev b) as [ | d r IHr ]; simpl; [ reflexivity | ].
    now rewrite <- IHr.
  - now rewrite IH, append_assoc.
Qed.

Lemma rev_involutive (s : string) : JS.rev (JS.rev s) = s.
Proof.
  induction s as [ | c s IH ]; simpl; [ reflexivity | ].
  now rewrite rev_append, IH.
Qed.

Lemma forallb_rev (p : ascii -> bool) (s : string) :
  JS.forallb p (JS.rev s) = JS.forallb p s.
Proof.
  induction s as [ | c s IH ]; simpl; [ reflexivity | ].
  rewrite forallb_append, IH. simpl. rewrite andb_true_r. apply andb_comm.
Qed.

Lemma rev_no_trailing (s : string) :
  no_leading_space s -> no_trailing_space (JS.rev s).
Proof.
  intros Hs before c Heq.
  assert (H : s = String c (JS.rev before)).
  { rewrite <- (rev_involutive s), Heq, rev_append. reflexivity. }
  subst s. exact Hs.
Qed.

Lemma rev_no_leading (s : string) :
  no_trailing_space s -> no_leading_space (JS.rev s).
Proof.
  intros Hs. destruct (JS.rev s) as [ | c r ] eqn:Hr; simpl; [ exact I | ].
  apply (Hs (JS.rev r) c).
  rewrite <- (rev_involutive s), Hr. reflexivity.
Qed.

(** [trimEnd] only removes white space from the end. *)
Lemma trimEnd_split (s : string) :
  exists spaces,
    s = JS.trimEnd s ++ spaces /\ JS.forallb JS.is_space spaces = true.
Proof.
  unfold JS.trimEnd, JS.trimStart.
  destruct (span_split JS.is_space (JS.rev s)) as [ Hsplit Hsp ].
  exists (JS.rev (fst (JS.span JS.is_space (JS.rev s)))).
  split; [ | now rewrite forallb_rev ].
  rewrite <- rev_append, <- Hsplit. now rewrite rev_involutive.
Qed.

Lemma trimEnd_no_trailing (s : string) : no_trailing_space (JS.trimEnd s).
Proof. apply rev_no_trailing, trimStart_no_leading. Qed.

Lemma trimEnd_id (s : string) : no_trailing_space s -> JS.trimEnd s = s.
Proof.
  intros Hs. unfold JS.trimEnd.
  rewrite (@trimStart_id _ (@rev_no_leading _ Hs)). apply rev_involutive.
Qed.

Lemma trimEnd_keeps_no_leading (s : string) :
  no_leading_space s -> no_leading_space (JS.trimEnd s).
Proof.
  intros Hs. destruct (trimEnd_split s) as [ spaces [ Hsplit _ ] ].
  destruct (JS.trimEnd s) as [ | c t ]; simpl; [ exact I | ].
  rewrite Hsplit in Hs. exact Hs.
Qed.

Lemma trim_facts (s : string) :
  no_leading_space (JS.trim s) /\ no_trailing_space (JS.trim s) /\
  JS.trim (JS.trim s) = JS.trim s /\
  exists left right,
    s = left ++ JS.trim s ++ right /\
    JS.forallb JS.is_space left = true /\
    JS.forallb JS.is_space right = true.
Proof.
  unfold JS.trim.
  pose proof (@trimEnd_keeps_no_leading _ (trimStart_no_leading s)) as Hlead.
  pose proof (trimEnd_no_trailing (JS.trimStart s)) as Htrail.
  split; [ exact Hlead | ]. split; [ exact Htrail | ]. split.
  - rewrite (@trimStart_id _ Hlead). now apply trimEnd_id.
  - destruct (trimEnd_split (JS.trimStart s)) as [ right [ Hr Hright ] ].
    destruct (span_split JS.is_space s) as [ Hl Hleft ].
    exists (fst (JS.span JS.is_space s)), right.
    split; [ | auto ]. rewrite <- Hr. exact Hl.
Qed.

(** X11. Every field that the extractor reads from a cell ([matchId],
    [outcome], [points_change], [date], [duration], [arena]) starts and
    ends without white space and is the text of the cell with only white
    space removed around it. *)
Theorem extractRow_trimmed_fields :
  forall element : Row,
    trimmed_of (td1 element) (MatchSummary.matchId (extractRow element)) /\
    trimmed_of (td3 element) (MatchSummary.outcome (extractRow element)) /\
    trimmed_of (td4 element) (MatchSummary.points_change (extractRow element)) /\
    trimmed_of (td5 element) (MatchSummary.date (extractRow element)) /\
    trimmed_of (td6 element) (MatchSummary.duration (extractRow element)) /\
    trimmed_of (td7 element) (MatchSummary.arena (extractRow element)).
Proof.
  intros element. unfold trimmed_of, extractRow.
  destruct (splitTeamBracket _). simpl.
  repeat split;
    match goal with
    | |- no_leading_space (JS.trim ?s) => apply (trim_facts s)
    | |- no_trailing_space (JS.trim ?s) => apply (trim_facts s)
    | |- exists _ _, ?s = _ /\ _ => apply (trim_facts s)
    end.
Qed.

(** ** The team name *)

(** The lazy star stops at the first place where what follows matches. *)
Lemma star_lazy_first (R : Type) (p : ascii -> bool) (s : string) :
  forall (k : string -> option R) (x : R),
    star_lazy p s k = Some x ->
    exists run s',
      s = run ++ s' /\ JS.forallb p run = true /\ k s' = Some x /\
      forall r1 r2, run = r1 ++ r2 -> r2 <> "" -> k (r2 ++ s') = None.
Proof.
  induction s as [ | c s IH ]; simpl; intros k x H.
  - destruct (k "") eqn:Hk; [ | discriminate ].
    exists "", "". injection H as ->. repeat split; auto.
    intros r1 r2 Hrun Hne. destruct r1; destruct r2; try discriminate.
    congruence.
  - destruct (k (String c s)) as [ y | ] eqn:Hk.
    + injection H as ->. exists "", (String c s). repeat split; auto.
      intros r1 r2 Hrun Hne. destruct r1; destruct r2; try discriminate.
      congruence.
    + destruct (p c) eqn:Hc; [ | discriminate ].
      destruct (IH _ _ H) as [ run [ s' [ -> [ Hrun [ Hk' Hfirst ] ] ] ] ].
      exists (String c run), s'. simpl. rewrite Hc.
      repeat split; auto.
      intros [ | d r1 ] r2 Heq Hne; simpl in Heq.
      * subst r2. exact Hk.
      * injection Heq as _ Heq. now apply Hfirst with (r1 := r1).
Qed.

Lemma teamBracketRegex_tail :
  teamBracketRegex = Cat (Group 1 (LazyStar JS.any_char)) bracketTail.
Proof. reflexivity. Qed.

Lemma bracketTail_space (c : ascii) (s s' : string) :
  JS.is_space c = true -> lang bracketTail s s' ->
  lang bracketTail (String c s) s'.
Proof.
  unfold bracketTail. cbn [lang].
  intros Hc [ s1 [ [ run [ -> Hrun ] ] Hrest ] ].
  exists s1. split; [ | exact Hrest ].
  exists (String c run). simpl. rewrite Hc. auto.
Qed.

Lemma bracketTail_keeps_group1 (s s' : string) (v : string)
    (caps' : captures) :
  sem bracketTail s [(1, v)] s' caps' -> capture 1 caps' = Some v.
Proof.
  unfold bracketTail. cbn [sem]. intros H. break. subst. reflexivity.
Qed.

Lemma String_match_inv (r : regex) (s : string) (m : MatchResult) :
  String_match r s = Some m ->
  exists before suffix, s = before ++ suffix /\ match_here r suffix = Some m.
Proof.
  induction s as [ | c s IH ]; simpl.
  - destruct (match_here r "") eqn:Hm; [ | discriminate ].
    intros H. injection H as ->. now exists "", "".
  - destruct (match_here r (String c s)) eqn:Hm.
    + intros H. injection H as ->. now exists "", (String c s).
    + intros H. destruct (IH H) as [ before [ suffix [ -> Hs ] ] ].
      now exists (String c before), suffix.
Qed.

(** The first group of a match of [teamBracketRegex]: no line terminator
    in it, and no white space at its end. *)
Lemma match_here_team_name (s : string) (m : MatchResult) :
  match_here teamBracketRegex s = Some m ->
  JS.forallb JS.any_char (nth_group m 1) = true /\
  no_trailing_space (nth_group m 1).
Proof.
  unfold match_here. rewrite teamBracketRegex_tail. cbn [rmatch].
  intros H. apply star_lazy_first in H.
  destruct H as [ run [ s' [ Hs [ Hrun [ Hk Hfirst ] ] ] ] ].
  pose proof Hk as Hk'. apply rmatch_sound in Hk'.
  destruct Hk' as [ s'' [ caps'' [ Hsem Hm ] ] ]. injection Hm as <-.
  unfold nth_group. cbn [groups].
  rewrite (bracketTail_keeps_group1 Hsem).
  rewrite Hs, taken_append. split; [ exact Hrun | ].
  intros before c Heq.
  destruct (JS.is_space c) eqn:Hc; [ | reflexivity ]. exfalso.
  assert (Hne : String c "" <> "") by discriminate.
  assert (Hnone := Hfirst before (String c "") Heq Hne).
  change (String c "" ++ s') with (String c s') in Hnone.
  revert Hnone. apply rmatch_complete with (s' := s'').
  - apply bracketTail_space; [ exact Hc | ]. exact (sem_lang _ _ _ _ _ Hsem).
  - discriminate.
Qed.

(** X12. The team name that the extractor returns holds no line
    terminator and does not end with white space: the blanks between the
    name and the bracket are not part of it. *)
Theorem extractRow_team_name_clean :
  forall element : Row,
    JS.forallb JS.any_char (MatchSummary.team_name (extractRow element)) = true /\
    no_trailing_space (MatchSummary.team_name (extractRow element)).
Proof.
  intros element. destruct (extractRow_split element) as [ -> _ ].
  unfold splitTeamBracket.
  assert (Hempty : JS.forallb JS.any_char "" = true /\ no_trailing_space "").
  { split; [ reflexivity | ]. intros [ | d before ] c Heq; discriminate. }
  destruct (JS.truthy _); [ | exact Hempty ].
  destruct (String_match teamBracketRegex _) as [ m | ] eqn:Hm;
    [ | exact Hempty ].
  apply String_match_inv in Hm. destruct Hm as [ before [ suffix [ _ Hm ] ] ].
  simpl. now apply match_here_team_name in Hm.
Qed.

Lemma append_cancel_l (a x y : string) : a ++ x = a ++ y -> x = y.
Proof.
  induction a as [ | c a IH ]; simpl; intros H; [ exact H | ].
  injection H as H. now apply IH.
Qed.

Lemma append_eq_append (a : string) :
  forall b x y,
    a ++ x = b ++ y ->
    (exists r, a = b ++ r /\ y = r ++ x) \/
    (exists r, b = a ++ r /\ x = r ++ y).
Proof.
  induction a as [ | c a IH ]; intros b x y H; simpl in H.
  - right. exists b. auto.
  - destruct b as [ | d b ]; simpl in H.
    + left. exists (String c a). auto.
    + injection H as -> H. destruct (IH _ _ _ H) as [ [ r [ -> -> ] ] | [ r [ -> -> ] ] ].
      * left. now exists r.
      * right. now exists r.
Qed.

Lemma bracketTail_lang (b after : string) :
  bracket_label b -> lang bracketTail ("(" ++ b ++ ")" ++ after) after.
Proof.
  intros [ n1 [ n2 [ -> [ H1 H2 ] ] ] ].
  unfold bracketTail. cbn [lang].
  exists ("(" ++ (n1 ++ "v" ++ n2) ++ ")" ++ after). split; [ now exists "" | ].
  exists ((n1 ++ "v" ++ n2) ++ ")" ++ after). split; [ now apply lang_Lit | ].
  exists (")" ++ after). split; [ | now apply lang_Lit ].
  exists ("v" ++ n2 ++ ")" ++ after). split.
  - apply lang_Plus. exists n1. split; [ | assumption ].
    now rewrite append_assoc.
  - exists (n2 ++ ")" ++ after). split; [ now apply lang_Lit | ].
    apply lang_Plus. now exists n2.
Qed.

(** A match of [teamBracketRegex] where it is tried: the name, the blanks,
    the label, and no earlier place in the name where a label follows. *)
Lemma match_here_team (s : string) (m : MatchResult) :
  match_here teamBracketRegex s = Some m ->
  exists ws after,
    s = nth_group m 1 ++ ws ++ "(" ++ nth_group m 2 ++ ")" ++ after /\
    JS.forallb JS.is_space ws = true /\
    bracket_label (nth_group m 2) /\
    forall r1 r2 s'',
      nth_group m 1 = r1 ++ r2 -> r2 <> "" ->
      ~ lang bracketTail
          (r2 ++ ws ++ "(" ++ nth_group m 2 ++ ")" ++ after) s''.
Proof.
  intros Hm. pose proof Hm as Hsound. apply match_here_sound in Hsound.
  destruct Hsound as [ Hsem Hwhole ].
  rewrite Hwhole in Hsem. apply teamBracketRegex_sem in Hsem.
  destruct Hsem as [ name [ ws [ b [ Heq [ _ [ Hws [ Hb [ H1 H2 ] ] ] ] ] ] ] ].
  rewrite <- Hwhole in Heq.
  unfold nth_group. rewrite H1, H2. exists ws, (rest m).
  split; [ exact Heq | ]. split; [ exact Hws | ]. split; [ exact Hb | ].
  intros r1 r2 s'' Hname Hne Hlang.
  unfold match_here in Hm. rewrite teamBracketRegex_tail in Hm.
  cbn [rmatch] in Hm. apply star_lazy_first in Hm.
  destruct Hm as [ run [ s' [ Hs [ _ [ Hk Hfirst ] ] ] ] ].
  pose proof Hk as Hk'. apply rmatch_sound in Hk'.
  destruct Hk' as [ s3 [ caps3 [ Hsem3 Hm3 ] ] ].
  assert (Hrun : run = name).
  { apply bracketTail_keeps_group1 in Hsem3.
    injection Hm3 as Hm3. rewrite <- Hm3 in H1. cbn [groups] in H1.
    rewrite H1 in Hsem3. injection Hsem3 as Hn.
    rewrite Hn, Hs. symmetry. apply taken_append. }
  subst run. rewrite Heq in Hs. apply append_cancel_l in Hs. subst s'.
  specialize (Hfirst r1 r2 Hname Hne). revert Hfirst.
  apply rmatch_complete with (s' := s''); [ exact Hlang | discriminate ].
Qed.

Lemma match_here_team_complete (text before b after : string) :
  text = before ++ "(" ++ b ++ ")" ++ after ->
  bracket_label b ->
  JS.forallb JS.any_char text = true ->
  match_here teamBracketRegex text <> None.
Proof.
  intros -> Hb Hany. apply match_here_complete with (s' := after).
  rewrite teamBracketRegex_tail. cbn [lang].
  exists ("(" ++ b ++ ")" ++ after). split.
  - exists before. split; [ reflexivity | ].
    rewrite forallb_append in Hany. now apply andb_prop in Hany.
  - now apply bracketTail_lang.
Qed.

Lemma space_not_open (ws rest y : string) :
  JS.forallb JS.is_space ws = true -> ws <> "" ->
  ws ++ rest = "(" ++ y -> False.
Proof.
  intros Hws Hne Heq. destruct ws as [ | c ws ]; [ congruence | ].
  simpl in Heq. injection Heq as -> _. discriminate.
Qed.

(** X13. For a text on one line that holds a bracket label between
    parentheses, the split takes the first such label: the text is the team
    name, then blanks, then the bracket in parentheses, then the rest; no
    label in parentheses starts earlier in the text; and the team name
    does not start with white space when the text does not. *)
Theorem splitTeamBracket_first_bracket :
  forall text : string,
    JS.forallb JS.any_char text = true ->
    has_bracket text ->
    exists ws after,
      text = fst (splitTeamBracket text) ++ ws ++
             "(" ++ snd (splitTeamBracket text) ++ ")" ++ after /\
      JS.forallb JS.is_space ws = true /\
      bracket_label (snd (splitTeamBracket text)) /\
      (forall before1 b1 after1,
         text = before1 ++ "(" ++ b1 ++ ")" ++ after1 ->
         bracket_label b1 ->
         String.length (fst (splitTeamBracket text) ++ ws)
           <= String.length before1) /\
      (no_leading_space text ->
       no_leading_space (fst (splitTeamBracket text))).
Proof.
  intros text Hany [ before0 [ b0 [ after0 [ Htext Hb0 ] ] ] ].
  unfold splitTeamBracket.
  assert (Htruthy : JS.truthy text = true).
  { rewrite Htext. now destruct before0. }
  rewrite Htruthy.
  pose proof (@match_here_team_complete _ _ _ _ Htext Hb0 Hany) as Hsome.
  destruct (match_here teamBracketRegex text) as [ m | ] eqn:Hm;
    [ | congruence ].
  rewrite (@String_match_here _ _ _ Hm). cbn [fst snd].
  destruct (@match_here_team _ _ Hm) as [ ws [ after [ Heq [ Hws [ Hb Hfirst ] ] ] ] ].
  exists ws, after. split; [ exact Heq | ]. split; [ exact Hws | ].
  split; [ exact Hb | ]. split.
  - intros before1 b1 after1 Htext1 Hb1.
    assert (Hsplit : (nth_group m 1 ++ ws)
                     ++ "(" ++ nth_group m 2 ++ ")" ++ after
                     = before1 ++ "(" ++ b1 ++ ")" ++ after1).
    { rewrite append_assoc, <- Heq. exact Htext1. }
    destruct (append_eq_append _ _ _ _ Hsplit) as [ [ r [ Hr Hy ] ] | [ r [ Hr _ ] ] ].
    + destruct r as [ | c r ].
      { rewrite Hr, !length_append. simpl. lia. }
      exfalso.
      destruct (append_eq_append _ _ _ _ Hr) as [ [ r' [ Hn Hr' ] ] | [ r' [ _ Hw ] ] ].
      * destruct r' as [ | d r' ].
        -- simpl in Hr'. rewrite Hr' in Hy.
           eapply space_not_open;
             [ exact Hws | rewrite <- Hr'; discriminate | symmetry; exact Hy ].
        -- apply (Hfirst before1 (String d r') after1 Hn ltac:(discriminate)).
           replace (String d r' ++ ws ++ "(" ++ nth_group m 2 ++ ")" ++ after)
             with ("(" ++ b1 ++ ")" ++ after1).
           ++ now apply bracketTail_lang.
           ++ rewrite Hy, Hr', append_assoc. reflexivity.
      * rewrite Hw, forallb_append in Hws. apply andb_prop in Hws.
        eapply space_not_open;
          [ exact (proj2 Hws) | discriminate | symmetry; exact Hy ].
    + rewrite Hr, !length_append. lia.
  - intros Hlead. rewrite Heq in Hlead.
    destruct (nth_group m 1); [ exact I | exact Hlead ].
Qed.

Lemma splitTeamBracket_first_bracket_witness :
  splitTeamBracket "Alpha (x) Strike  (12v3) (2v2)"
  = ("Alpha (x) Strike", "12v3") /\
  exists ws after,
    "Alpha (x) Strike  (12v3) (2v2)" =
      fst (splitTeamBracket "Alpha (x) Strike  (12v3) (2v2)") ++ ws ++ "(" ++
      snd (splitTeamBracket "Alpha (x) Strike  (12v3) (2v2)") ++ ")" ++ after /\
    JS.forallb JS.is_space ws = true.
Proof.
  split; [ reflexivity | ].
  destruct (@splitTeamBracket_first_bracket "Alpha (x) Strike  (12v3) (2v2)"
              eq_refl)
    as [ ws [ after [ Heq [ Hws _ ] ] ] ].
  - exists "Alpha (x) Strike  (12v3) ", "2v2", "".
    split; [ reflexivity | ]. exists "2", "2". repeat split.
  - exists ws, after. auto.
Defined.
